(** * Segment trees of [baselines/common/operation.py]

    A shallow embedding of the classes [SegmentTree], [SumSegmentTree] and
    [MinSegmentTree], followed by the properties of the range-query engine
    that the specification states about them.

    Python values are modelled as follows.
    - [int] is [Z]; [//] is floor division, [Z.div].
    - a [list] is a [list]; an index is a [Z] and goes through [Py.index],
      which implements Python's negative indexing and raises [IndexError]
      outside [[-len, len)].
    - an exception aborts the call and leaves the store as it was at the
      moment of the raise ([Raise] carries no roll-back).
    - [float] is IEEE binary64, [PrimFloat.float]; the tree code is duck
      typed, so the classes are written over any type of numbers with the
      operations they use ([Py.Num]), instantiated at binary64 and at [Z]
      (numbers whose arithmetic is exact). *)

From Stdlib Require Import ZArith Lia Floats.
From stdpp Require Import base list.
From Equations Require Import Equations.

Local Open Scope Z_scope.

(** ** The fragment of the Python runtime the classes rely on *)

Module Py.

Inductive exn : Set := IndexError | RecursionError.

(** Outcome of a call.  [Timeout] is not a Python outcome: it is what a
    fuel-bounded [while] loop of the model answers when its fuel is spent
    before the loop condition turns false. *)
Inductive result (A : Type) : Type :=
| Ok (a : A)
| Raise (e : exn)
| Timeout.
Arguments Ok {A} a.
Arguments Raise {A} e.
Arguments Timeout {A}.

Definition bind {A B : Type} (m : result A) (f : A -> result B) : result B :=
  match m with
  | Ok a => f a
  | Raise e => Raise e
  | Timeout => Timeout
  end.

(** [l[i]] resolves [i] against [len(l)]: non-negative indices count from
    the front, negative ones from the back. *)
Definition index {A : Type} (l : list A) (i : Z) : result nat :=
  let n := Z.of_nat (length l) in
  if bool_decide (0 <= i < n) then Ok (Z.to_nat i)
  else if bool_decide (- n <= i < 0) then Ok (Z.to_nat (i + n))
  else Raise IndexError.

(** [l[i]] *)
Definition getitem {A : Type} (l : list A) (i : Z) : result A :=
  bind (index l i) (fun n =>
    match l !! n with
    | Some x => Ok x
    | None => Raise IndexError
    end).

(** [l[i] = v] *)
Definition setitem {A : Type} (l : list A) (i : Z) (v : A) : result (list A) :=
  bind (index l i) (fun n => Ok (<[n:=v]> l)).

(** The numbers stored in a tree: what [operator.add], [-], [<] and the
    literal [0.0] mean for them. *)
Class Num (V : Type) : Type := {
  add : V -> V -> V;
  sub : V -> V -> V;
  lt : V -> V -> bool;
  zero : V
}.

(** [a > b] is [b < a]. *)
Definition gt {V : Type} `{Num V} (a b : V) : bool := lt b a.

(** The builtin [min(a, b)]: keeps [a] unless [b < a]. *)
Definition min {V : Type} `{Num V} (a b : V) : V :=
  if lt b a then b else a.

(** Python floats. *)
#[global] Instance Binary64 : Num float := {
  add := PrimFloat.add;
  sub := PrimFloat.sub;
  lt := PrimFloat.ltb;
  zero := 0%float
}.

(** Numbers with exact arithmetic. *)
#[global] Instance Exact : Num Z := {
  add := Z.add;
  sub := Z.sub;
  lt := Z.ltb;
  zero := 0
}.

End Py.

Import Py (result, Ok, Raise, Timeout, IndexError, RecursionError).

(** ** class SegmentTree *)

Module SegmentTree.

Section Defs.
Context {V : Type}.

Record t : Type := Make {
  capacity : Z;
  tree : list V;
  operation : V -> V -> V
}.

(** [__init__]: [2 * capacity] slots, all [init_value]. *)
Definition __init__ (capacity : Z) (operation : V -> V -> V) (init_value : V) : t :=
  {| capacity := capacity;
     tree := replicate (Z.to_nat (2 * capacity)) init_value;
     operation := operation |}.

(** [self.tree[node]] *)
Definition slot (self : t) (node : Z) : result V :=
  Py.getitem (tree self) node.

(** [_operate_helper]; [depth] is the number of frames the interpreter
    still allows, and running out of them is [RecursionError]. *)
Fixpoint _operate_helper (depth : nat) (self : t)
    (start end_ node node_start node_end : Z) : result V :=
  match depth with
  | O => Raise RecursionError
  | S depth =>
    if (start =? node_start) && (end_ =? node_end) then slot self node
    else
      let mid := (node_start + node_end) / 2 in
      if end_ <=? mid then
        _operate_helper depth self start end_ (2 * node) node_start mid
      else if mid + 1 <=? start then
        _operate_helper depth self start end_ (2 * node + 1) (mid + 1) node_end
      else
        Py.bind (_operate_helper depth self start mid (2 * node) node_start mid)
          (fun l =>
        Py.bind (_operate_helper depth self (mid + 1) end_ (2 * node + 1) (mid + 1) node_end)
          (fun r =>
        Ok (operation self l r)))
  end.

(** [operate] *)
Definition operate (depth : nat) (self : t) (start end_ : Z) : result V :=
  let end_ := if end_ <=? 0 then end_ + capacity self else end_ in
  let end_ := end_ - 1 in
  _operate_helper depth self start end_ 1 0 (capacity self - 1).

(** One turn of the loop of [__setitem__]:
    [self.tree[idx] = self.operation(self.tree[2 * idx], self.tree[2 * idx + 1])]. *)
Definition recompute (op : V -> V -> V) (idx : Z) (tr : list V) : result (list V) :=
  Py.bind (Py.getitem tr (2 * idx)) (fun l =>
  Py.bind (Py.getitem tr (2 * idx + 1)) (fun r =>
  Py.setitem tr idx (op l r))).

(** [while idx >= 1: ...; idx //= 2].  The answer pairs the outcome with
    the list as the loop left it. *)
Equations? setitem_loop (op : V -> V -> V) (idx : Z) (tr : list V) :
    result unit * list V by wf (Z.to_nat idx) lt :=
  setitem_loop op idx tr with decide (1 <= idx) := {
    | left _ with recompute op idx tr := {
      | Ok tr' => setitem_loop op (idx / 2) tr'
      | Raise e => (Raise e, tr)
      | Timeout => (Timeout, tr) }
    | right _ => (Ok tt, tr) }.
Proof.
  assert (idx / 2 < idx) by (apply Z.div_lt; lia).
  assert (0 <= idx / 2) by (apply Z.div_pos; lia).
  lia.
Qed.

(** [__setitem__] *)
Definition __setitem__ (self : t) (idx : Z) (val : V) : result unit * t :=
  let idx := idx + capacity self in
  match Py.setitem (tree self) idx val with
  | Ok tr =>
    let '(r, tr') := setitem_loop (operation self) (idx / 2) tr in
    (r, {| capacity := capacity self; tree := tr'; operation := operation self |})
  | Raise e => (Raise e, self)
  | Timeout => (Timeout, self)
  end.

(** [__getitem__] *)
Definition __getitem__ (self : t) (idx : Z) : result V :=
  Py.getitem (tree self) (capacity self + idx).

End Defs.
Arguments t V : clear implicits.

End SegmentTree.

(** ** class SumSegmentTree(SegmentTree) *)

Module SumSegmentTree.

(** [__init__]: [operation=operator.add], [init_value=0.0]; the fill value
    is the float [0.0], so a fresh tree is a binary64 tree. *)
Definition __init__ (capacity : Z) : SegmentTree.t float :=
  SegmentTree.__init__ capacity Py.add 0%float.

Section Defs.
Context {V : Type} `{Py.Num V}.

(** [sum] *)
Definition sum (depth : nat) (self : SegmentTree.t V) (start end_ : Z) : result V :=
  SegmentTree.operate depth self start end_.

(** The loop of [retrieve], from the current [idx] and [upperbound];
    [fuel] bounds the number of turns. *)
Fixpoint retrieve_loop (fuel : nat) (self : SegmentTree.t V)
    (idx : Z) (upperbound : V) : result Z :=
  if idx <? SegmentTree.capacity self then
    match fuel with
    | O => Timeout
    | S fuel =>
      let left := 2 * idx in
      let right := left + 1 in
      Py.bind (SegmentTree.slot self left) (fun l =>
        if Py.gt l upperbound then
          retrieve_loop fuel self (2 * idx) upperbound
        else
          Py.bind (SegmentTree.slot self left) (fun l' =>
            retrieve_loop fuel self right (Py.sub upperbound l')))
    end
  else Ok (idx - SegmentTree.capacity self).

(** [retrieve] *)
Definition retrieve (fuel : nat) (self : SegmentTree.t V) (upperbound : V) : result Z :=
  retrieve_loop fuel self 1 upperbound.

End Defs.

End SumSegmentTree.

(** ** class MinSegmentTree(SegmentTree) *)

Module MinSegmentTree.

(** [__init__]: [operation=min], [init_value=float("inf")]. *)
Definition __init__ (capacity : Z) : SegmentTree.t float :=
  SegmentTree.__init__ capacity Py.min infinity.

(** [min] *)
Definition min (depth : nat) (self : SegmentTree.t float) (start end_ : Z) : result float :=
  SegmentTree.operate depth self start end_.

End MinSegmentTree.

(** ** Vocabulary of the specification *)

Section Vocabulary.
Context {V : Type}.
Implicit Type self : SegmentTree.t V.

(** The shape [__init__] builds for a positive capacity and every method
    keeps: [len(tree) == 2 * capacity]. *)
Definition well_formed self : Prop :=
  1 <= SegmentTree.capacity self /\
  Z.of_nat (length (SegmentTree.tree self)) = 2 * SegmentTree.capacity self.

(** The fold invariant: every internal node holds the operation applied to
    its two children. *)
Definition fold_invariant self : Prop :=
  forall i, 1 <= i < SegmentTree.capacity self ->
    SegmentTree.slot self i =
    Py.bind (SegmentTree.slot self (2 * i)) (fun l =>
    Py.bind (SegmentTree.slot self (2 * i + 1)) (fun r =>
    Ok (SegmentTree.operation self l r))).

(** The raw leaf values, external index 0 first. *)
Definition leaves self : list V :=
  drop (Z.to_nat (SegmentTree.capacity self)) (SegmentTree.tree self).

(** The items of [xs] at positions [start, start + 1, ..., end_ - 1]. *)
Definition range (xs : list V) (start end_ : Z) : list V :=
  take (Z.to_nat (end_ - start)) (drop (Z.to_nat start) xs).

(** The naive linear fold: [acc = identity; for x in xs: acc = op(acc, x)]. *)
Definition naive_fold (op : V -> V -> V) (identity : V) (xs : list V) : V :=
  fold_left op xs identity.

(** The naive fold of the tree's operation over the leaves at external indices
    [a, ..., b - 1]. *)
Definition range_fold self (identity : V) (a b : Z) : V :=
  naive_fold (SegmentTree.operation self) identity (range (leaves self) a b).

(** Slot [s] of the list [tr] holds [op] of slots [2 * s] and [2 * s + 1]. *)
Definition node_ok (op : V -> V -> V) (tr : list V) (s : Z) : Prop :=
  exists l r, tr !! Z.to_nat (2 * s) = Some l /\ tr !! Z.to_nat (2 * s + 1) = Some r /\
              tr !! Z.to_nat s = Some (op l r).

(** [ancestor_or_self p s]: slot [s] is met when walking [p, p // 2,
    p // 4, ...]. *)
Inductive ancestor_or_self : Z -> Z -> Prop :=
| anc_self p : ancestor_or_self p p
| anc_up p s : ancestor_or_self (p / 2) s -> ancestor_or_self p s.

(** A sequence of [tree[idx] = val] statements, run in order; an exception
    ends the run. *)
Fixpoint set_all self (writes : list (Z * V)) : result unit * SegmentTree.t V :=
  match writes with
  | [] => (Ok tt, self)
  | (idx, val) :: writes =>
    match SegmentTree.__setitem__ self idx val with
    | (Ok _, self') => set_all self' writes
    | (r, self') => (r, self')
    end
  end.

End Vocabulary.

(** The sum of the leaves at external indices [a, ..., b - 1], in exact
    arithmetic. *)
Definition leaf_sum (self : SegmentTree.t Z) (a b : Z) : Z :=
  naive_fold Z.add 0 (range (leaves self) a b).

(** The sum of the leaves at external indices [0, ..., i - 1];
    [prefix_sum self 0 = 0]. *)
Definition prefix_sum (self : SegmentTree.t Z) (i : Z) : Z :=
  leaf_sum self 0 i.

(** ** Sample trees *)

(** Capacity 4, every slot an integer: the base class built with
    [operator.add] after [set(0,1); set(1,2); set(2,3); set(3,4)]. *)
Definition sum_1234 : SegmentTree.t Z :=
  SegmentTree.Make 4 [0; 10; 3; 7; 1; 2; 3; 4] Py.add.

(** A binary64 tree whose leaves are [1e16, 1, 1, 1]. *)
Definition sum_1e16 : SegmentTree.t float :=
  snd (set_all (SumSegmentTree.__init__ 4)
         [(0, 1e16%float); (1, 1%float); (2, 1%float); (3, 1%float)]).

(** The plain array a tree stands for, after a sequence of writes:
    [xs[idx] = val] for each write in turn. *)
Definition apply_writes {V : Type} (xs : list V) (writes : list (Z * V)) : list V :=
  fold_left (fun l w => <[Z.to_nat (fst w) := snd w]> l) writes xs.

(** A [MinSegmentTree] of capacity 4 after [set(0,5); set(1,1); set(2,3)]. *)
Definition min_513 : SegmentTree.t float :=
  SegmentTree.Make 4
    [infinity; 1%float; 1%float; 3%float; 5%float; 1%float; 3%float; infinity] Py.min.

(** ** Python list access at indices that count from the front *)

Section ListAccess.
Context {A : Type}.
Implicit Types (l : list A) (i : Z).

Lemma index_front l i :
  0 <= i < Z.of_nat (length l) -> Py.index l i = Ok (Z.to_nat i).
Proof.
  intros Hi. unfold Py.index. cbv zeta.
  rewrite bool_decide_eq_true_2 by assumption. reflexivity.
Qed.

Lemma index_beyond l i :
  Z.of_nat (length l) <= i -> Py.index l i = Raise IndexError.
Proof.
  intros Hi. unfold Py.index. cbv zeta.
  rewrite !bool_decide_eq_false_2 by lia. reflexivity.
Qed.

Lemma getitem_front l i :
  0 <= i < Z.of_nat (length l) ->
  exists x, l !! Z.to_nat i = Some x /\ Py.getitem l i = Ok x.
Proof.
  intros Hi. unfold Py.getitem. rewrite index_front by assumption. simpl.
  destruct (lookup_lt_is_Some_2 l (Z.to_nat i)) as [x Hx]; [lia|].
  exists x. rewrite Hx. auto.
Qed.

Lemma getitem_lookup l i x :
  0 <= i -> l !! Z.to_nat i = Some x -> Py.getitem l i = Ok x.
Proof.
  intros Hi Hx. pose proof (lookup_lt_Some _ _ _ Hx) as Hlt.
  destruct (getitem_front l i) as (y & Hy & ->); [lia|]. congruence.
Qed.

Lemma getitem_Ok_front l i x :
  0 <= i -> Py.getitem l i = Ok x -> l !! Z.to_nat i = Some x.
Proof.
  intros Hi. unfold Py.getitem, Py.index. cbv zeta.
  case_bool_decide; simpl.
  - destruct (l !! Z.to_nat i); congruence.
  - rewrite bool_decide_eq_false_2 by lia. discriminate.
Qed.

Lemma setitem_front l i v :
  0 <= i < Z.of_nat (length l) ->
  Py.setitem l i v = Ok (<[Z.to_nat i := v]> l).
Proof.
  intros Hi. unfold Py.setitem. rewrite index_front by assumption. reflexivity.
Qed.

Lemma setitem_beyond l i v :
  Z.of_nat (length l) <= i -> Py.setitem l i v = Raise IndexError.
Proof.
  intros Hi. unfold Py.setitem. rewrite index_beyond by assumption. reflexivity.
Qed.

(** Reading slot [j] after writing slot [i]. *)
Lemma lookup_insert_Z l i j v :
  0 <= i -> 0 <= j -> i <> j ->
  <[Z.to_nat i := v]> l !! Z.to_nat j = l !! Z.to_nat j.
Proof. intros Hi Hj Hne. apply list_lookup_insert_ne. lia. Qed.

Lemma lookup_insert_Z_eq l i v :
  0 <= i < Z.of_nat (length l) ->
  <[Z.to_nat i := v]> l !! Z.to_nat i = Some v.
Proof. intros Hi. apply list_lookup_insert_eq. lia. Qed.

End ListAccess.

(** ** The walk from a slot to the root *)

Lemma ancestor_le p s : 0 <= p -> ancestor_or_self p s -> 0 <= s <= p.
Proof.
  intros Hp Hs. induction Hs as [p|p s Hs IH]; [lia|].
  assert (0 <= p / 2 <= p) by (split; [apply Z.div_pos|apply Z.div_le_upper_bound]; lia).
  lia.
Qed.

Lemma ancestor_inv p s : ancestor_or_self p s -> s = p \/ ancestor_or_self (p / 2) s.
Proof. intros Hs. destruct Hs; auto. Qed.

Lemma ancestor_proper p s :
  0 <= p -> ancestor_or_self p s -> s = p \/ s <= p / 2.
Proof.
  intros Hp Hs. destruct (ancestor_inv _ _ Hs) as [?|Hup]; [auto|right].
  apply ancestor_le in Hup; [lia|]. apply Z.div_pos; lia.
Qed.

(** The parent of a slot on the walk is on the walk. *)
Lemma ancestor_parent p s :
  ancestor_or_self p s -> ancestor_or_self p (s / 2).
Proof.
  intros Hs. induction Hs as [p|p s Hs IH].
  - apply anc_up, anc_self.
  - apply anc_up, IH.
Qed.

Lemma ancestor_child p n c :
  c = 2 * n \/ c = 2 * n + 1 -> ancestor_or_self p c -> ancestor_or_self p n.
Proof.
  intros Hc Hs. replace n with (c / 2).
  - apply ancestor_parent, Hs.
  - symmetry. destruct Hc; subst c.
    + apply (Z.div_unique _ _ _ 0); lia.
    + apply (Z.div_unique _ _ _ 1); lia.
Qed.

(** ** The loop of [__setitem__] *)

Section SetItemLoop.
Context {V : Type}.
Implicit Types (tr : list V) (op : V -> V -> V).

Lemma recompute_Ok op idx tr :
  1 <= idx -> 2 * idx + 1 < Z.of_nat (length tr) ->
  exists l r, tr !! Z.to_nat (2 * idx) = Some l /\ tr !! Z.to_nat (2 * idx + 1) = Some r /\
    SegmentTree.recompute op idx tr = Ok (<[Z.to_nat idx := op l r]> tr).
Proof.
  intros Hidx Hlen. unfold SegmentTree.recompute.
  destruct (getitem_front tr (2 * idx)) as (l & Hl & ->); [lia|].
  destruct (getitem_front tr (2 * idx + 1)) as (r & Hr & ->); [lia|].
  exists l, r. simpl. rewrite setitem_front by lia. auto.
Qed.

Lemma setitem_loop_spec op idx tr :
  0 <= idx -> 2 * idx + 1 < Z.of_nat (length tr) ->
  exists tr',
    SegmentTree.setitem_loop op idx tr = (Ok tt, tr') /\
    length tr' = length tr /\
    (forall s, 0 <= s -> ~ (1 <= s /\ ancestor_or_self idx s) ->
               tr' !! Z.to_nat s = tr !! Z.to_nat s) /\
    (forall s, 1 <= s -> ancestor_or_self idx s -> node_ok op tr' s).
Proof.
  remember (Z.to_nat idx) as n eqn:Hn. revert idx tr Hn.
  induction n as [n IH] using lt_wf_ind. intros idx tr Hn Hidx Hlen.
  simp setitem_loop. destruct (decide (1 <= idx)) as [Hge|Hlt]; simpl.
  - destruct (recompute_Ok op idx tr Hge Hlen) as (l & r & Hl & Hr & ->). simpl.
    assert (Hhalf : 0 <= idx / 2 < idx)
      by (split; [apply Z.div_pos|apply Z.div_lt]; lia).
    assert (Hhalf2 : 2 * (idx / 2) <= idx)
      by (apply Z.mul_div_le; lia).
    set (tr1 := <[Z.to_nat idx := op l r]> tr).
    assert (Hlen1 : length tr1 = length tr) by apply length_insert.
    destruct (IH (Z.to_nat (idx / 2)) ltac:(lia) (idx / 2) tr1 eq_refl ltac:(lia) ltac:(lia))
      as (tr' & Hrun & Hlen' & Hframe & Hnodes).
    exists tr'. split; [exact Hrun|]. split; [congruence|]. split.
    + intros s Hs Hoff. rewrite Hframe; [|assumption|].
      * apply lookup_insert_Z; [lia|assumption|].
        intros <-. apply Hoff. split; [lia|apply anc_self].
      * intros [Hs1 Hanc]. apply Hoff. split; [assumption|apply anc_up, Hanc].
    + intros s Hs Hanc. destruct (ancestor_inv _ _ Hanc) as [->|Hup].
      * exists l, r.
        assert (Hkeep : forall j, idx <= j -> tr' !! Z.to_nat j = tr1 !! Z.to_nat j).
        { intros j Hj. apply Hframe; [lia|]. intros [_ Hj'].
          apply ancestor_le in Hj'; lia. }
        rewrite !Hkeep by lia. unfold tr1.
        rewrite !lookup_insert_Z by lia.
        rewrite lookup_insert_Z_eq by lia. auto.
      * apply Hnodes; assumption.
  - assert (idx = 0) by lia. subst idx.
    exists tr. split; [reflexivity|]. split; [reflexivity|]. split; [reflexivity|].
    intros s Hs Hanc. apply ancestor_le in Hanc; lia.
Qed.
End SetItemLoop.

(** ** [__setitem__] on a well-formed tree *)

Section SetItem.
Context {V : Type}.
Implicit Types (self : SegmentTree.t V) (val : V).

Lemma slot_lookup self s x :
  0 <= s -> SegmentTree.tree self !! Z.to_nat s = Some x -> SegmentTree.slot self s = Ok x.
Proof. apply getitem_lookup. Qed.

Lemma fold_invariant_nodes self :
  well_formed self ->
  fold_invariant self <->
  (forall n, 1 <= n < SegmentTree.capacity self ->
     node_ok (SegmentTree.operation self) (SegmentTree.tree self) n).
Proof.
  intros [Hcap Hlen]. split; intros Hinv n Hn.
  - specialize (Hinv n Hn). unfold SegmentTree.slot in Hinv.
    destruct (getitem_front (SegmentTree.tree self) n) as (x & Hx & Hgx); [lia|].
    destruct (getitem_front (SegmentTree.tree self) (2 * n)) as (l & Hl & Hgl); [lia|].
    destruct (getitem_front (SegmentTree.tree self) (2 * n + 1)) as (r & Hr & Hgr); [lia|].
    rewrite Hgx, Hgl, Hgr in Hinv. simpl in Hinv.
    exists l, r. split; [assumption|]. split; [assumption|]. congruence.
  - destruct (Hinv n Hn) as (l & r & Hl & Hr & Hx).
    rewrite (slot_lookup self (2 * n) l), (slot_lookup self (2 * n + 1) r),
      (slot_lookup self n (SegmentTree.operation self l r)) by (assumption || lia).
    reflexivity.
Qed.

(** What a write at an in-range external index does to the slots. *)
Lemma setitem_in_range self idx val :
  well_formed self -> 0 <= idx < SegmentTree.capacity self ->
  let p := idx + SegmentTree.capacity self in
  exists tr',
    SegmentTree.__setitem__ self idx val =
      (Ok tt, SegmentTree.Make (SegmentTree.capacity self) tr' (SegmentTree.operation self)) /\
    length tr' = length (SegmentTree.tree self) /\
    tr' !! Z.to_nat p = Some val /\
    (forall s, 0 <= s -> ~ ancestor_or_self p s ->
       tr' !! Z.to_nat s = SegmentTree.tree self !! Z.to_nat s) /\
    (forall s, 1 <= s -> s <> p -> ancestor_or_self p s ->
       node_ok (SegmentTree.operation self) tr' s).
Proof.
  intros [Hcap Hlen] Hidx p. unfold SegmentTree.__setitem__. cbv zeta. fold p.
  rewrite setitem_front by lia.
  set (tr0 := <[Z.to_nat p := val]> (SegmentTree.tree self)).
  assert (Hlen0 : length tr0 = length (SegmentTree.tree self)) by apply length_insert.
  assert (Hhalf : 0 <= p / 2 < p) by (split; [apply Z.div_pos|apply Z.div_lt]; lia).
  assert (Hdm : p = 2 * (p / 2) + p mod 2) by (apply Z.div_mod; lia).
  assert (Hmod : 0 <= p mod 2 < 2) by (apply Z.mod_pos_bound; lia).
  destruct (setitem_loop_spec (SegmentTree.operation self) (p / 2) tr0)
    as (tr' & -> & Hlen' & Hframe & Hnodes); [lia|lia|].
  exists tr'. split; [reflexivity|]. split; [congruence|]. split; [|split].
  - rewrite Hframe; [apply lookup_insert_Z_eq; lia|lia|].
    intros [_ Hanc]. apply ancestor_le in Hanc; lia.
  - intros s Hs Hoff. rewrite Hframe; [|assumption|].
    + apply lookup_insert_Z; [lia|assumption|]. intros <-. apply Hoff, anc_self.
    + intros [_ Hanc]. apply Hoff, anc_up, Hanc.
  - intros s Hs Hne Hanc. apply Hnodes; [assumption|].
    destruct (ancestor_inv _ _ Hanc); [contradiction|assumption].
Qed.

(** A leaf slot other than the written one is off the walk to the root. *)
Lemma other_leaf_off_walk c p s :
  1 <= c -> c <= p < 2 * c -> c <= s -> s <> p -> ~ ancestor_or_self p s.
Proof.
  intros Hc Hp Hs Hne Hanc.
  destruct (ancestor_proper p s ltac:(lia) Hanc) as [?|Hle]; [contradiction|].
  assert (p / 2 < c) by (apply Z.div_lt_upper_bound; lia). lia.
Qed.

Lemma walk_dec p s : 0 <= p -> ancestor_or_self p s \/ ~ ancestor_or_self p s.
Proof.
  intros Hp. remember (Z.to_nat p) as n eqn:Hn. revert p Hp Hn.
  induction n as [n IH] using lt_wf_ind. intros p Hp Hn.
  destruct (decide (s = p)) as [->|Hne]; [left; apply anc_self|].
  destruct (decide (p = 0)) as [->|Hp0].
  - right. intros Hanc. apply ancestor_le in Hanc; lia.
  - assert (Hhalf : 0 <= p / 2 < p) by (split; [apply Z.div_pos|apply Z.div_lt]; lia).
    destruct (IH (Z.to_nat (p / 2)) ltac:(lia) (p / 2) ltac:(lia) eq_refl) as [Hon|Hoff].
    + left. apply anc_up, Hon.
    + right. intros Hanc. destruct (ancestor_inv _ _ Hanc); contradiction.
Qed.

Lemma setitem_keeps_invariant self idx val :
  well_formed self -> 0 <= idx < SegmentTree.capacity self -> fold_invariant self ->
  exists self',
    SegmentTree.__setitem__ self idx val = (Ok tt, self') /\
    SegmentTree.capacity self' = SegmentTree.capacity self /\
    SegmentTree.operation self' = SegmentTree.operation self /\
    well_formed self' /\ fold_invariant self'.
Proof.
  intros Hwf Hidx Hinv.
  destruct (setitem_in_range self idx val Hwf Hidx)
    as (tr' & Hrun & Hlen' & Hleaf & Hframe & Hnodes).
  set (p := idx + SegmentTree.capacity self) in *.
  eexists. split; [exact Hrun|]. split; [reflexivity|]. split; [reflexivity|].
  assert (Hwf' : well_formed
            (SegmentTree.Make (SegmentTree.capacity self) tr' (SegmentTree.operation self))).
  { destruct Hwf as [Hcap Hlen]. split; simpl; [assumption|]. rewrite Hlen'. exact Hlen. }
  split; [exact Hwf'|].
  apply fold_invariant_nodes; [exact Hwf'|]. simpl. intros n Hn.
  destruct (walk_dec p n ltac:(lia)) as [Hon|Hoff].
  - apply Hnodes; [lia|lia|assumption].
  - destruct (proj1 (fold_invariant_nodes self Hwf) Hinv n Hn) as (l & r & Hl & Hr & Hx).
    exists l, r.
    rewrite !Hframe; [auto|lia|assumption|lia| |lia|].
    + intros Hc. apply Hoff. eapply ancestor_child; [right; reflexivity|exact Hc].
    + intros Hc. apply Hoff. eapply ancestor_child; [left; reflexivity|exact Hc].
Qed.

End SetItem.

(** ** Point updates: invariant, frame and read-back *)

Section PointUpdate.
Context {V : Type}.
Implicit Types (self : SegmentTree.t V) (val : V).

Lemma init_well_formed capacity (op : V -> V -> V) init_value :
  1 <= capacity -> well_formed (SegmentTree.__init__ capacity op init_value).
Proof.
  intros Hc. split; simpl; [assumption|]. rewrite length_replicate. lia.
Qed.

Lemma init_fold_invariant capacity (op : V -> V -> V) init_value :
  op init_value init_value = init_value ->
  fold_invariant (SegmentTree.__init__ capacity op init_value).
Proof.
  intros Hid. destruct (decide (1 <= capacity)) as [Hc|Hc].
  - apply fold_invariant_nodes; [apply init_well_formed; assumption|].
    simpl. intros n Hn. exists init_value, init_value.
    rewrite !lookup_replicate_2 by lia. rewrite Hid. auto.
  - intros i Hi. simpl in Hi. lia.
Qed.

Lemma set_all_keeps_invariant self writes :
  well_formed self -> fold_invariant self ->
  Forall (fun w => 0 <= fst w < SegmentTree.capacity self) writes ->
  exists self',
    set_all self writes = (Ok tt, self') /\
    SegmentTree.capacity self' = SegmentTree.capacity self /\
    SegmentTree.operation self' = SegmentTree.operation self /\
    well_formed self' /\ fold_invariant self'.
Proof.
  intros Hwf Hinv Hall. revert self Hwf Hinv Hall.
  induction writes as [|[idx val] writes IH]; intros self Hwf Hinv Hall.
  - exists self. auto.
  - apply Forall_cons in Hall as [Hidx Hall]. simpl in Hidx.
    destruct (setitem_keeps_invariant self idx val Hwf Hidx Hinv)
      as (self1 & Hrun & Hcap & Hop & Hwf1 & Hinv1).
    destruct (IH self1 Hwf1 Hinv1) as (self' & Hrun' & Hcap' & Hop' & Hwf' & Hinv').
    { rewrite Hcap. exact Hall. }
    exists self'. simpl. rewrite Hrun. split; [exact Hrun'|].
    split; [congruence|]. split; [congruence|]. auto.
Qed.

(** C3. Starting from a freshly constructed [SegmentTree] whose slots all
    hold the identity (a value [e] with [op e e = e]), any finite sequence
    of [set(index, value)] calls with in-range indices runs to the end
    without an exception, and afterwards every internal node [i] in
    [[1, capacity)] holds [operation(tree[2i], tree[2i+1])]. *)
Theorem fold_invariant_after_sets
    (capacity : Z) (op : V -> V -> V) (identity : V) (writes : list (Z * V)) :
  op identity identity = identity ->
  Forall (fun w => 0 <= fst w < capacity) writes ->
  exists self',
    set_all (SegmentTree.__init__ capacity op identity) writes = (Ok tt, self') /\
    forall i, 1 <= i < capacity ->
      exists x l r,
        SegmentTree.slot self' i = Ok x /\
        SegmentTree.slot self' (2 * i) = Ok l /\
        SegmentTree.slot self' (2 * i + 1) = Ok r /\
        x = op l r.
Proof.
  intros Hid Hall. destruct (decide (1 <= capacity)) as [Hc|Hc].
  - destruct (set_all_keeps_invariant (SegmentTree.__init__ capacity op identity) writes)
      as (self' & Hrun & Hcap & Hop & Hwf & Hinv);
      [apply init_well_formed; assumption|apply init_fold_invariant; assumption|exact Hall|].
    exists self'. split; [exact Hrun|]. intros i Hi.
    simpl in Hcap, Hop.
    destruct (proj1 (fold_invariant_nodes self' Hwf) Hinv i ltac:(lia))
      as (l & r & Hl & Hr & Hx).
    exists (op l r), l, r. rewrite <- Hop.
    repeat split; apply slot_lookup; assumption || lia.
  - destruct writes as [|[idx val] writes].
    + eexists. split; [reflexivity|]. intros i Hi. lia.
    + apply Forall_cons in Hall as [Hidx _]. simpl in Hidx. lia.
Qed.


Lemma getitem_ext (l l' : list V) i :
  0 <= i -> length l' = length l -> l' !! Z.to_nat i = l !! Z.to_nat i ->
  Py.getitem l' i = Py.getitem l i.
Proof.
  intros Hi Hlen Hlk. unfold Py.getitem, Py.index. cbv zeta. rewrite Hlen.
  case_bool_decide; simpl; [rewrite Hlk; reflexivity|].
  rewrite bool_decide_eq_false_2 by lia. reflexivity.
Qed.


(** C6. For an in-range index [i], [set(i, value)] writes [value] to
    slot [capacity + i], gives every other slot on the walk from that leaf
    to the root [operation] of its two children, and leaves every slot
    off that walk as it was; in particular [get(j)] is unchanged for every
    [j <> i] in [[0, capacity)]. *)
Theorem setitem_frame self idx val :
  well_formed self -> 0 <= idx < SegmentTree.capacity self ->
  exists self',
    SegmentTree.__setitem__ self idx val = (Ok tt, self') /\
    SegmentTree.capacity self' = SegmentTree.capacity self /\
    SegmentTree.slot self' (SegmentTree.capacity self + idx) = Ok val /\
    (forall s, 1 <= s -> s <> SegmentTree.capacity self + idx ->
       ancestor_or_self (SegmentTree.capacity self + idx) s ->
       SegmentTree.slot self' s =
       Py.bind (SegmentTree.slot self' (2 * s)) (fun l =>
       Py.bind (SegmentTree.slot self' (2 * s + 1)) (fun r =>
       Ok (SegmentTree.operation self l r)))) /\
    (forall s, 0 <= s -> ~ ancestor_or_self (SegmentTree.capacity self + idx) s ->
       SegmentTree.slot self' s = SegmentTree.slot self s) /\
    (forall j, 0 <= j < SegmentTree.capacity self -> j <> idx ->
       SegmentTree.__getitem__ self' j = SegmentTree.__getitem__ self j).
Proof.
  intros Hwf Hidx.
  destruct (setitem_in_range self idx val Hwf Hidx)
    as (tr' & Hrun & Hlen' & Hleaf & Hframe & Hnodes).
  rewrite (Z.add_comm idx) in Hleaf, Hframe, Hnodes.
  set (p := SegmentTree.capacity self + idx) in *.
  destruct Hwf as [Hcap Hlen].
  eexists. split; [exact Hrun|]. split; [reflexivity|].
  assert (Hslot : forall s, 0 <= s -> ~ ancestor_or_self p s ->
            Py.getitem tr' s = Py.getitem (SegmentTree.tree self) s).
  { intros s Hs Hoff. apply getitem_ext; auto. }
  split; [apply slot_lookup; [lia|exact Hleaf]|]. split; [|split].
  - intros s Hs Hne Hanc. destruct (Hnodes s Hs Hne Hanc) as (l & r & Hl & Hr & Hx).
    unfold SegmentTree.slot. simpl.
    rewrite (getitem_lookup tr' (2 * s) l), (getitem_lookup tr' (2 * s + 1) r),
      (getitem_lookup tr' s (SegmentTree.operation self l r)) by (assumption || lia).
    reflexivity.
  - exact Hslot.
  - intros j Hj Hne. unfold SegmentTree.__getitem__. simpl. apply Hslot; [lia|].
    apply (other_leaf_off_walk (SegmentTree.capacity self)); lia.
Qed.

(** C10. For an in-range index [i] and any value [v], [set(i, v)]
    followed by [get(i)] returns exactly [v]. *)
Theorem getitem_after_setitem self idx val :
  well_formed self -> 0 <= idx < SegmentTree.capacity self ->
  exists self',
    SegmentTree.__setitem__ self idx val = (Ok tt, self') /\
    SegmentTree.__getitem__ self' idx = Ok val.
Proof.
  intros Hwf Hidx.
  destruct (setitem_in_range self idx val Hwf Hidx) as (tr' & Hrun & _ & Hleaf & _).
  eexists. split; [exact Hrun|]. unfold SegmentTree.__getitem__. simpl.
  apply getitem_lookup; [destruct Hwf; lia|].
  rewrite Z.add_comm. exact Hleaf.
Qed.

End PointUpdate.

(** ** Sub-lists and the naive fold *)

Section Ranges.
Context {V : Type}.
Implicit Types (xs : list V).

Lemma range_split xs a b c :
  0 <= a <= b -> b <= c -> range xs a c = range xs a b ++ range xs b c.
Proof.
  intros Hab Hbc. unfold range.
  replace (Z.to_nat (c - a)) with (Z.to_nat (b - a) + Z.to_nat (c - b))%nat by lia.
  rewrite <- take_take_drop, drop_drop.
  replace (Z.to_nat a + Z.to_nat (b - a))%nat with (Z.to_nat b) by lia.
  reflexivity.
Qed.

Lemma range_length xs a b :
  0 <= a <= b -> b <= Z.of_nat (length xs) -> Z.of_nat (length (range xs a b)) = b - a.
Proof.
  intros Hab Hb. unfold range. rewrite length_take, length_drop. lia.
Qed.

Lemma range_one xs a x :
  0 <= a -> xs !! Z.to_nat a = Some x -> range xs a (a + 1) = [x].
Proof.
  intros Ha Hx. unfold range.
  replace (Z.to_nat (a + 1 - a)) with 1%nat by lia.
  rewrite (drop_S _ _ _ Hx). reflexivity.
Qed.

Lemma range_empty xs a : range xs a a = [].
Proof. unfold range. rewrite Z.sub_diag. reflexivity. Qed.

Section Monoid.
Variable op : V -> V -> V.
Variable e : V.
Hypothesis op_assoc : forall a b c, op a (op b c) = op (op a b) c.
Hypothesis op_left_id : forall a, op e a = a.

Lemma fold_left_shift xs a b : fold_left op xs (op a b) = op a (fold_left op xs b).
Proof.
  revert b. induction xs as [|x xs IH]; intros b; simpl; [reflexivity|].
  rewrite <- op_assoc. apply IH.
Qed.

Lemma naive_fold_app xs ys :
  ys <> [] ->
  naive_fold op e (xs ++ ys) = op (naive_fold op e xs) (naive_fold op e ys).
Proof.
  intros Hys. unfold naive_fold. rewrite fold_left_app.
  destruct ys as [|y ys]; [contradiction|]. simpl.
  rewrite fold_left_shift, op_left_id. reflexivity.
Qed.

Lemma naive_fold_range xs a b c :
  0 <= a <= b -> b < c -> c <= Z.of_nat (length xs) ->
  naive_fold op e (range xs a c) =
  op (naive_fold op e (range xs a b)) (naive_fold op e (range xs b c)).
Proof.
  intros Hab Hbc Hc. rewrite (range_split xs a b c) by lia.
  apply naive_fold_app. intros Hnil.
  pose proof (range_length xs b c ltac:(lia) Hc) as Hlen.
  rewrite Hnil in Hlen. simpl in Hlen. lia.
Qed.
End Monoid.

End Ranges.

(** ** Range folds *)

Section RangeFold.
Context {V : Type}.
Variable self : SegmentTree.t V.
Variable e : V.
Hypothesis self_wf : well_formed self.
Hypothesis self_inv : fold_invariant self.
Hypothesis op_assoc : forall a b c,
  SegmentTree.operation self a (SegmentTree.operation self b c) =
  SegmentTree.operation self (SegmentTree.operation self a b) c.
Hypothesis op_left_id : forall a, SegmentTree.operation self e a = a.

Local Abbreviation cap := (SegmentTree.capacity self).
Local Abbreviation F := (range_fold self e).

Lemma leaves_length : Z.of_nat (length (leaves self)) = cap.
Proof.
  destruct self_wf as [Hcap Hlen]. unfold leaves. rewrite length_drop. lia.
Qed.

Lemma leaves_lookup j :
  0 <= j -> leaves self !! Z.to_nat j = SegmentTree.tree self !! Z.to_nat (cap + j).
Proof.
  intros Hj. destruct self_wf as [Hcap Hlen]. unfold leaves. rewrite lookup_drop.
  f_equal. lia.
Qed.

(** A node [n] that sits [h] levels above the leaves, over the external
    indices [[ns, ns + 2^h)], holds their fold. *)
Lemma node_value (h : nat) : forall n ns,
  n * 2 ^ Z.of_nat h = cap + ns -> 0 <= ns -> ns + 2 ^ Z.of_nat h <= cap ->
  SegmentTree.slot self n = Ok (F ns (ns + 2 ^ Z.of_nat h)).
Proof.
  destruct self_wf as [Hcap Hlen].
  induction h as [|h IH]; intros n ns Hn Hns Hfit.
  - change (2 ^ Z.of_nat 0) with 1 in *.
    destruct (getitem_front (SegmentTree.tree self) n) as (x & Hx & Hgx); [lia|].
    unfold SegmentTree.slot. rewrite Hgx. f_equal. unfold range_fold.
    rewrite (range_one _ ns x); [|lia|].
    + unfold naive_fold. simpl. symmetry. apply op_left_id.
    + rewrite leaves_lookup by lia. rewrite <- Hx. f_equal. lia.
  - rewrite Nat2Z.inj_succ, Z.pow_succ_r in * by lia.
    set (w := 2 ^ Z.of_nat h) in *.
    assert (Hw : 0 < w) by (apply Z.pow_pos_nonneg; lia).
    assert (Hrange : 1 <= n < cap) by nia.
    rewrite (self_inv n Hrange).
    rewrite (IH (2 * n) ns) by lia.
    rewrite (IH (2 * n + 1) (ns + w)) by lia. simpl. f_equal. unfold range_fold.
    replace (ns + 2 * w) with (ns + w + w) by lia.
    symmetry. apply naive_fold_range; auto; try lia.
    rewrite leaves_length. lia.
Qed.

(** [_operate_helper] below a node that covers the query. *)
Lemma operate_helper_correct (h : nat) : forall depth n ns ne start end_,
  (h < depth)%nat ->
  n * 2 ^ Z.of_nat h = cap + ns -> 0 <= ns -> ne = ns + 2 ^ Z.of_nat h - 1 -> ne < cap ->
  ns <= start <= end_ -> end_ <= ne ->
  SegmentTree._operate_helper depth self start end_ n ns ne = Ok (F start (end_ + 1)).
Proof.
  induction h as [|h IH]; intros depth n ns ne start end_ Hd Hn Hns Hne Hfit Hse Hend;
    (destruct depth as [|depth]; [lia|]); simpl.
  - change (2 ^ Z.of_nat 0) with 1 in *.
    assert (start = ns /\ end_ = ne) as [-> ->] by lia.
    rewrite !Z.eqb_refl. simpl. subst ne.
    rewrite (node_value 0 n ns) by (change (2 ^ Z.of_nat 0) with 1; lia).
    change (2 ^ Z.of_nat 0) with 1. do 2 f_equal. lia.
  - destruct ((start =? ns) && (end_ =? ne)) eqn:Hhit.
    + apply andb_true_iff in Hhit as [->%Z.eqb_eq ->%Z.eqb_eq].
      rewrite (node_value (S h) n ns) by lia. do 2 f_equal. lia.
    + rewrite Nat2Z.inj_succ, Z.pow_succ_r in * by lia.
      set (w := 2 ^ Z.of_nat h) in *.
      assert (Hw : 0 < w) by (apply Z.pow_pos_nonneg; lia).
      assert (Hmid : (ns + ne) / 2 = ns + w - 1)
        by (symmetry; apply (Z.div_unique _ _ _ 1); lia).
      rewrite Hmid.
      destruct (Z.leb_spec end_ (ns + w - 1)) as [Hleft|Hleft].
      * apply (IH depth (2 * n) ns); lia.
      * destruct (Z.leb_spec (ns + w - 1 + 1) start) as [Hright|Hright].
        -- apply (IH depth (2 * n + 1) (ns + w - 1 + 1)); lia.
        -- rewrite (IH depth (2 * n) ns (ns + w - 1) start (ns + w - 1)) by lia.
           rewrite (IH depth (2 * n + 1) (ns + w - 1 + 1) ne (ns + w - 1 + 1) end_) by lia.
           simpl. f_equal. unfold range_fold. symmetry.
           apply naive_fold_range; auto; try lia.
           rewrite leaves_length. lia.
Qed.

Lemma operate_correct (k depth : nat) start end_ :
  cap = 2 ^ Z.of_nat k -> (k < depth)%nat -> 0 <= start < end_ -> end_ <= cap ->
  SegmentTree.operate depth self start end_ = Ok (F start end_).
Proof.
  intros Hk Hd Hse Hend. unfold SegmentTree.operate. cbv zeta.
  destruct (Z.leb_spec end_ 0) as [?|_]; [lia|].
  rewrite (operate_helper_correct k depth 1 0 (cap - 1) start (end_ - 1)) by lia.
  do 2 f_equal. lia.
Qed.

End RangeFold.

(** ** Facts about the sample trees *)

Lemma sum_1234_built :
  set_all (SegmentTree.__init__ 4 Py.add 0) [(0, 1); (1, 2); (2, 3); (3, 4)] =
  (Ok tt, sum_1234).
Proof. reflexivity. Qed.

Lemma sum_1234_well_formed : well_formed sum_1234.
Proof. split; simpl; lia. Qed.

Lemma sum_1234_fold_invariant : fold_invariant sum_1234.
Proof.
  intros i Hi. simpl in Hi.
  assert (i = 1 \/ i = 2 \/ i = 3) as [->|[->| ->]] by lia; reflexivity.
Qed.

(** ** Claims on [operate] *)

(** C2 as stated fails on binary64 sums, whose addition is not
    associative: the tree with leaves [1e16, 1, 1, 1] is well formed, has
    capacity [2^2] and satisfies the fold invariant, yet [operate(0, 4)] is
    [(1e16 + 1) + (1 + 1) = 1e16 + 2] while the naive left-to-right fold
    from [0.0] rounds every [+ 1] away and is [1e16]. *)
Lemma operate_is_naive_fold_counterexample :
  well_formed sum_1e16 /\
  SegmentTree.capacity sum_1e16 = 2 ^ 2 /\
  fold_invariant sum_1e16 /\
  leaves sum_1e16 = [1e16; 1; 1; 1]%float /\
  SegmentTree.operate 3 sum_1e16 0 4 = Ok 10000000000000002%float /\
  naive_fold (SegmentTree.operation sum_1e16) 0%float (range (leaves sum_1e16) 0 4) =
    1e16%float /\
  SegmentTree.operate 3 sum_1e16 0 4 <>
  Ok (naive_fold (SegmentTree.operation sum_1e16) 0%float (range (leaves sum_1e16) 0 4)).
Proof.
  assert (Hcap : SegmentTree.capacity sum_1e16 = 4) by (vm_compute; reflexivity).
  assert (Hlen : length (SegmentTree.tree sum_1e16) = 8%nat) by (vm_compute; reflexivity).
  split; [split; rewrite ?Hcap, ?Hlen; lia|].
  split; [exact Hcap|]. split.
  { intros i Hi. rewrite Hcap in Hi.
    assert (i = 1 \/ i = 2 \/ i = 3) as [->|[->| ->]] by lia; vm_compute; reflexivity. }
  split; [vm_compute; reflexivity|].
  split; [vm_compute; reflexivity|].
  split; [vm_compute; reflexivity|].
  intros Heq.
  pose proof (f_equal (fun r : result float =>
                         match r with
                         | Ok x => PrimFloat.eqb x 1e16%float
                         | _ => false
                         end) Heq) as Hb.
  vm_compute in Hb. discriminate.
Qed.

(** C2, as the code has it. On a tree of power-of-two capacity whose fold
    invariant holds, whose
    operation is associative and has [identity] as left identity, for every
    range with [0 <= start < end <= capacity], [operate(start, end)] returns
    the naive linear fold of the operation, started at the identity, over
    the raw leaves at external indices [start, ..., end - 1]; a recursion
    allowance above [log2 capacity] is enough. *)
Theorem operate_is_naive_fold {V : Type} (self : SegmentTree.t V) (identity : V)
    (k depth : nat) (start end_ : Z) :
  well_formed self ->
  SegmentTree.capacity self = 2 ^ Z.of_nat k ->
  fold_invariant self ->
  (forall a b c, SegmentTree.operation self a (SegmentTree.operation self b c) =
                 SegmentTree.operation self (SegmentTree.operation self a b) c) ->
  (forall a, SegmentTree.operation self identity a = a) ->
  (k < depth)%nat ->
  0 <= start < end_ -> end_ <= SegmentTree.capacity self ->
  SegmentTree.operate depth self start end_ =
  Ok (naive_fold (SegmentTree.operation self) identity (range (leaves self) start end_)).
Proof.
  intros Hwf Hk Hinv Hassoc Hid Hd Hse Hend.
  apply (operate_correct self identity Hwf Hinv Hassoc Hid k); assumption.
Qed.

Lemma operate_is_naive_fold_witness :
  SegmentTree.operate 3 sum_1234 1 4 = Ok 9 /\
  naive_fold Z.add 0 (range (leaves sum_1234) 1 4) = 9.
Proof.
  split; [|reflexivity].
  rewrite (operate_is_naive_fold sum_1234 0 2 3 1 4).
  - reflexivity.
  - exact sum_1234_well_formed.
  - reflexivity.
  - exact sum_1234_fold_invariant.
  - intros a b c. simpl. lia.
  - intros a. reflexivity.
  - lia.
  - lia.
  - simpl. lia.
Defined.


(** [operate(0, 0)] folds the entire structure. *)
Lemma operate_0_0_folds_all {V : Type} (self : SegmentTree.t V) (identity : V)
    (k depth : nat) :
  well_formed self ->
  SegmentTree.capacity self = 2 ^ Z.of_nat k ->
  fold_invariant self ->
  (forall a b c, SegmentTree.operation self a (SegmentTree.operation self b c) =
                 SegmentTree.operation self (SegmentTree.operation self a b) c) ->
  (forall a, SegmentTree.operation self identity a = a) ->
  (k < depth)%nat ->
  SegmentTree.operate depth self 0 0 =
  Ok (naive_fold (SegmentTree.operation self) identity (leaves self)).
Proof.
  intros Hwf Hk Hinv Hassoc Hid Hd. pose proof Hwf as [Hcap Hlen].
  assert (Hall : SegmentTree.operate depth self 0 0 =
                 SegmentTree.operate depth self 0 (SegmentTree.capacity self)).
  { unfold SegmentTree.operate. cbv zeta. simpl (0 <=? 0). cbv iota.
    destruct (Z.leb_spec (SegmentTree.capacity self) 0) as [?|_]; [lia|].
    reflexivity. }
  rewrite Hall.
  rewrite (operate_correct self identity Hwf Hinv Hassoc Hid k) by (assumption || lia).
  unfold range_fold. do 2 f_equal. unfold range. rewrite Z.sub_0_r. simpl.
  apply take_ge. pose proof (leaves_length self Hwf). lia.
Qed.



(** ** [retrieve]: the descent *)

(** Every node of a tree of capacity [2^k] sits some [h] levels above the
    leaves, over a block of [2^h] of them. *)
Lemma node_height (k : nat) : forall n,
  1 <= n < 2 ^ Z.of_nat (S k) ->
  exists h : nat, (h <= k)%nat /\
    2 ^ Z.of_nat k <= n * 2 ^ Z.of_nat h /\
    (n + 1) * 2 ^ Z.of_nat h <= 2 ^ Z.of_nat (S k).
Proof.
  induction k as [|k IH]; intros n Hn.
  - exists 0%nat. change (2 ^ Z.of_nat 1) with 2 in Hn.
    change (2 ^ Z.of_nat 0) with 1. change (2 ^ Z.of_nat 1) with 2. lia.
  - destruct (Z.le_gt_cases (2 ^ Z.of_nat (S k)) n) as [Hleaf|Hinner].
    + exists 0%nat. change (2 ^ Z.of_nat 0) with 1. lia.
    + destruct (IH n ltac:(lia)) as (h & Hh & Hlo & Hhi).
      exists (S h). split; [lia|].
      rewrite !(Nat2Z.inj_succ (S k)), !(Nat2Z.inj_succ h), !Z.pow_succ_r by lia.
      rewrite (Nat2Z.inj_succ k), Z.pow_succ_r in * by lia. lia.
Qed.

Lemma ancestor_shift (h : nat) : forall p,
  0 <= p -> ancestor_or_self p (p / 2 ^ Z.of_nat h).
Proof.
  induction h as [|h IH]; intros p Hp.
  - change (2 ^ Z.of_nat 0) with 1. rewrite Z.div_1_r. apply anc_self.
  - rewrite Nat2Z.inj_succ, Z.pow_succ_r by lia.
    rewrite (Z.mul_comm 2), <- Z.div_div by (try apply Z.pow_pos_nonneg; lia).
    apply ancestor_parent, IH, Hp.
Qed.

(** A leaf in the block below node [n] has [n] on its walk to the root. *)
Lemma leaf_below (c : Z) (h : nat) (n ns i : Z) :
  0 <= c -> n * 2 ^ Z.of_nat h = c + ns -> 0 <= ns ->
  ns <= i < ns + 2 ^ Z.of_nat h ->
  ancestor_or_self (c + i) n.
Proof.
  intros Hc Hn Hns Hi.
  replace n with ((c + i) / 2 ^ Z.of_nat h); [apply ancestor_shift; lia|].
  symmetry. apply (Z.div_unique _ _ _ (i - ns)); lia.
Qed.

Section Descent.
Context {V : Type} `{Py.Num V}.
Implicit Types (self : SegmentTree.t V) (upperbound : V).

(** The loop, entered at a node [n] that sits [h] levels above the leaves,
    ends within [h] turns at a leaf below [n], whatever the tree holds. *)
Lemma retrieve_loop_total self (h : nat) : forall fuel n ns upperbound,
  well_formed self ->
  (h <= fuel)%nat ->
  n * 2 ^ Z.of_nat h = SegmentTree.capacity self + ns -> 0 <= ns ->
  ns + 2 ^ Z.of_nat h <= SegmentTree.capacity self ->
  exists i, SumSegmentTree.retrieve_loop fuel self n upperbound = Ok i /\
            ns <= i < ns + 2 ^ Z.of_nat h.
Proof.
  induction h as [|h IH]; intros fuel n ns upperbound Hwf Hfuel Hn Hns Hfit.
  - change (2 ^ Z.of_nat 0) with 1 in *. exists ns.
    destruct fuel; simpl;
      (destruct (Z.ltb_spec n (SegmentTree.capacity self)); [lia|]);
      split; (f_equal; lia) || lia.
  - rewrite Nat2Z.inj_succ, Z.pow_succ_r in * by lia.
    set (w := 2 ^ Z.of_nat h) in *.
    assert (Hw : 0 < w) by (apply Z.pow_pos_nonneg; lia).
    destruct Hwf as [Hcap Hlen].
    destruct fuel as [|fuel]; [lia|]. simpl.
    destruct (Z.ltb_spec n (SegmentTree.capacity self)) as [Hin|?]; [|nia].
    unfold SegmentTree.slot.
    destruct (getitem_front (SegmentTree.tree self) (2 * n)) as (l & _ & ->); [nia|].
    simpl. destruct (Py.gt l upperbound).
    + destruct (IH fuel (2 * n) ns upperbound) as (i & -> & Hi);
        [split; assumption|lia|lia|lia|lia|].
      exists i. split; [reflexivity|lia].
    + destruct (IH fuel (2 * n + 1) (ns + w) (Py.sub upperbound l)) as (i & -> & Hi);
        [split; assumption|lia|lia|lia|lia|].
      exists i. split; [reflexivity|lia].
Qed.

Lemma retrieve_total self (k fuel : nat) upperbound :
  well_formed self ->
  SegmentTree.capacity self = 2 ^ Z.of_nat k ->
  (k <= fuel)%nat ->
  exists i, SumSegmentTree.retrieve fuel self upperbound = Ok i /\
            0 <= i < SegmentTree.capacity self.
Proof.
  intros Hwf Hk Hfuel. unfold SumSegmentTree.retrieve.
  destruct (retrieve_loop_total self k fuel 1 0 upperbound) as (i & Hi & Hrange);
    [assumption|assumption|lia|lia|lia|].
  exists i. split; [exact Hi|lia].
Qed.

(** C7. At an internal node [idx] whose left child holds [l], the descent
    goes to the left child, with the same upperbound, exactly when
    [l > upperbound], and the index returned is then a leaf below the left
    child; otherwise it goes to the right child with [upperbound - l], and
    the index returned is a leaf below the right child.  In particular,
    when the upperbound equals [l] (and [l < l] is false, as for every
    Python number) the right branch is taken with [l - l]. *)
Theorem retrieve_descent (k fuel : nat) self (idx : Z) upperbound (l : V) :
  well_formed self ->
  SegmentTree.capacity self = 2 ^ Z.of_nat k ->
  1 <= idx < SegmentTree.capacity self ->
  (k <= fuel)%nat ->
  SegmentTree.slot self (2 * idx) = Ok l ->
  (Py.gt l upperbound = true ->
     SumSegmentTree.retrieve_loop (S fuel) self idx upperbound =
     SumSegmentTree.retrieve_loop fuel self (2 * idx) upperbound /\
     exists i,
       SumSegmentTree.retrieve_loop (S fuel) self idx upperbound = Ok i /\
       0 <= i < SegmentTree.capacity self /\
       ancestor_or_self (SegmentTree.capacity self + i) (2 * idx)) /\
  (Py.gt l upperbound = false ->
     SumSegmentTree.retrieve_loop (S fuel) self idx upperbound =
     SumSegmentTree.retrieve_loop fuel self (2 * idx + 1) (Py.sub upperbound l) /\
     exists i,
       SumSegmentTree.retrieve_loop (S fuel) self idx upperbound = Ok i /\
       0 <= i < SegmentTree.capacity self /\
       ancestor_or_self (SegmentTree.capacity self + i) (2 * idx + 1)) /\
  (Py.lt l l = false ->
     SumSegmentTree.retrieve_loop (S fuel) self idx l =
     SumSegmentTree.retrieve_loop fuel self (2 * idx + 1) (Py.sub l l) /\
     exists i,
       SumSegmentTree.retrieve_loop (S fuel) self idx l = Ok i /\
       0 <= i < SegmentTree.capacity self /\
       ancestor_or_self (SegmentTree.capacity self + i) (2 * idx + 1)).
Proof.
  intros Hwf Hk Hidx Hfuel Hl. pose proof Hwf as [Hcap Hlen].
  destruct (node_height k idx) as (h & Hh & Hlo & Hhi).
  { rewrite Nat2Z.inj_succ, Z.pow_succ_r by lia. lia. }
  rewrite Nat2Z.inj_succ, Z.pow_succ_r, <- Hk in Hhi by lia. rewrite <- Hk in Hlo.
  destruct h as [|h]; [change (2 ^ Z.of_nat 0) with 1 in Hlo; lia|].
  rewrite Nat2Z.inj_succ, Z.pow_succ_r in Hlo, Hhi by lia.
  set (w := 2 ^ Z.of_nat h) in *.
  assert (Hw : 0 < w) by (apply Z.pow_pos_nonneg; lia).
  set (ns := idx * (2 * w) - SegmentTree.capacity self).
  assert (Hleft : forall u, exists i,
            SumSegmentTree.retrieve_loop fuel self (2 * idx) u = Ok i /\
            0 <= i < SegmentTree.capacity self /\
            ancestor_or_self (SegmentTree.capacity self + i) (2 * idx)).
  { intros u.
    destruct (retrieve_loop_total self h fuel (2 * idx) ns u) as (i & Hi & Hr);
      [assumption|lia|fold w; lia|lia|fold w; lia|].
    fold w in Hr. exists i. split; [exact Hi|]. split; [lia|].
    apply (leaf_below _ h _ ns); fold w; lia. }
  assert (Hright : forall u, exists i,
            SumSegmentTree.retrieve_loop fuel self (2 * idx + 1) u = Ok i /\
            0 <= i < SegmentTree.capacity self /\
            ancestor_or_self (SegmentTree.capacity self + i) (2 * idx + 1)).
  { intros u.
    destruct (retrieve_loop_total self h fuel (2 * idx + 1) (ns + w) u) as (i & Hi & Hr);
      [assumption|lia|fold w; lia|lia|fold w; lia|].
    fold w in Hr. exists i. split; [exact Hi|]. split; [lia|].
    apply (leaf_below _ h _ (ns + w)); fold w; lia. }
  assert (Hstep : forall u,
            SumSegmentTree.retrieve_loop (S fuel) self idx u =
            if Py.gt l u
            then SumSegmentTree.retrieve_loop fuel self (2 * idx) u
            else SumSegmentTree.retrieve_loop fuel self (2 * idx + 1) (Py.sub u l)).
  { intros u. simpl.
    destruct (Z.ltb_spec idx (SegmentTree.capacity self)) as [_|?]; [|lia].
    rewrite Hl. simpl. destruct (Py.gt l u); reflexivity. }
  split; [|split].
  - intros Hgt. rewrite Hstep, Hgt. split; [reflexivity|apply Hleft].
  - intros Hgt. rewrite Hstep, Hgt. split; [reflexivity|apply Hright].
  - intros Hlt. rewrite Hstep. unfold Py.gt. rewrite Hlt.
    split; [reflexivity|apply Hright].
Qed.

(** C8. On a [SumSegmentTree] of power-of-two capacity whose leaves are
    all zero, [retrieve(upperbound)] ends, within [log2 capacity] turns
    of its loop, and returns an index in [[0, capacity)], for every
    upperbound (so for [retrieve(0)] too). *)
Theorem retrieve_all_zero self (k fuel : nat) upperbound :
  well_formed self ->
  SegmentTree.capacity self = 2 ^ Z.of_nat k ->
  (forall j, 0 <= j < SegmentTree.capacity self ->
     SegmentTree.__getitem__ self j = Ok Py.zero) ->
  (k <= fuel)%nat ->
  exists i, SumSegmentTree.retrieve fuel self upperbound = Ok i /\
            0 <= i < SegmentTree.capacity self.
Proof.
  intros Hwf Hk _ Hfuel. apply (retrieve_total self k); assumption.
Qed.

(** On a fresh tree filled with zero every comparison is [0 > 0]: the
    descent keeps right and [retrieve(0)] is the last index. *)
Lemma retrieve_fresh_loop (c : Z) (h : nat) : forall fuel n,
  Py.lt Py.zero Py.zero = false -> Py.sub Py.zero Py.zero = Py.zero ->
  (h <= fuel)%nat -> 1 <= n ->
  (n + 1) * 2 ^ Z.of_nat h = 2 * c ->
  SumSegmentTree.retrieve_loop fuel (SegmentTree.__init__ c Py.add Py.zero) n Py.zero =
  Ok (c - 1).
Proof.
  induction h as [|h IH]; intros fuel n Hlt Hsub Hfuel Hn Hpos.
  - change (2 ^ Z.of_nat 0) with 1 in *.
    destruct fuel; simpl; (destruct (Z.ltb_spec n c); [lia|]); f_equal; lia.
  - rewrite Nat2Z.inj_succ, Z.pow_succ_r in * by lia.
    set (w := 2 ^ Z.of_nat h) in *.
    assert (Hw : 0 < w) by (apply Z.pow_pos_nonneg; lia).
    destruct fuel as [|fuel]; [lia|]. simpl.
    destruct (Z.ltb_spec n c) as [Hin|?]; [|nia].
    unfold SegmentTree.slot. simpl.
    rewrite (getitem_lookup _ (2 * n) Py.zero)
      by (lia || (apply lookup_replicate_2; lia)).
    simpl. unfold Py.gt. rewrite Hlt, Hsub. apply IH; auto; lia.
Qed.

End Descent.

Lemma retrieve_zero_fresh {V : Type} `{Py.Num V} (k fuel : nat) :
  Py.lt Py.zero Py.zero = false -> Py.sub Py.zero Py.zero = Py.zero ->
  (k <= fuel)%nat ->
  SumSegmentTree.retrieve fuel (SegmentTree.__init__ (2 ^ Z.of_nat k) Py.add Py.zero)
    Py.zero =
  Ok (2 ^ Z.of_nat k - 1).
Proof.
  intros Hlt Hsub Hfuel. unfold SumSegmentTree.retrieve.
  apply (retrieve_fresh_loop _ k); auto; lia.
Qed.

(** ** [retrieve]: the prefix-sum bucket, in exact arithmetic *)

Section Bucket.
Variable self : SegmentTree.t Z.
Hypothesis self_wf : well_formed self.
Hypothesis self_inv : fold_invariant self.
Hypothesis self_add : SegmentTree.operation self = Py.add.

Local Abbreviation cap := (SegmentTree.capacity self).
Local Abbreviation F := (leaf_sum self).

Lemma add_assoc_op a b c :
  SegmentTree.operation self a (SegmentTree.operation self b c) =
  SegmentTree.operation self (SegmentTree.operation self a b) c.
Proof. rewrite self_add. simpl. lia. Qed.

Lemma add_left_id a : SegmentTree.operation self 0 a = a.
Proof. rewrite self_add. reflexivity. Qed.

Lemma sum_split a b c : 0 <= a <= b -> b <= c -> F a c = F a b + F b c.
Proof.
  intros Hab Hbc. unfold leaf_sum, naive_fold. rewrite (range_split _ a b c) by lia.
  rewrite fold_left_app.
  rewrite <- (Z.add_0_r (fold_left Z.add (range (leaves self) a b) 0)) at 1.
  apply fold_left_shift. intros; lia.
Qed.

Lemma sum_node (h : nat) n ns :
  n * 2 ^ Z.of_nat h = cap + ns -> 0 <= ns -> ns + 2 ^ Z.of_nat h <= cap ->
  SegmentTree.slot self n = Ok (F ns (ns + 2 ^ Z.of_nat h)).
Proof.
  intros Hn Hns Hfit.
  rewrite (node_value self 0 self_wf self_inv add_assoc_op add_left_id h n ns) by assumption.
  unfold range_fold, leaf_sum. rewrite self_add. reflexivity.
Qed.

(** Entered at node [n] with [0 <= upperbound < tree[n]], the loop ends at
    the leaf below [n] whose bucket, counted from the first leaf below
    [n], holds the upperbound. *)
Lemma retrieve_loop_bucket (h : nat) : forall fuel n ns upperbound,
  (h <= fuel)%nat ->
  n * 2 ^ Z.of_nat h = cap + ns -> 0 <= ns -> ns + 2 ^ Z.of_nat h <= cap ->
  0 <= upperbound < F ns (ns + 2 ^ Z.of_nat h) ->
  exists i, SumSegmentTree.retrieve_loop fuel self n upperbound = Ok i /\
            ns <= i < ns + 2 ^ Z.of_nat h /\
            F ns i <= upperbound < F ns (i + 1).
Proof.
  induction h as [|h IH]; intros fuel n ns upperbound Hfuel Hn Hns Hfit Hub.
  - change (2 ^ Z.of_nat 0) with 1 in *. exists ns.
    assert (Hleaf : SumSegmentTree.retrieve_loop fuel self n upperbound = Ok ns).
    { destruct fuel; simpl; (destruct (Z.ltb_spec n cap); [lia|]); f_equal; lia. }
    split; [exact Hleaf|]. split; [lia|].
    unfold leaf_sum at 1. rewrite range_empty. unfold naive_fold. simpl. lia.
  - pose proof (sum_node (S h) n ns Hn Hns Hfit) as Hroot.
    rewrite Nat2Z.inj_succ, Z.pow_succ_r in * by lia.
    set (w := 2 ^ Z.of_nat h) in *.
    assert (Hw : 0 < w) by (apply Z.pow_pos_nonneg; lia).
    destruct fuel as [|fuel]; [lia|]. simpl.
    destruct (Z.ltb_spec n cap) as [Hin|?]; [|nia].
    rewrite (sum_node h (2 * n) ns) by (fold w; lia). fold w. simpl.
    pose proof (sum_split ns (ns + w) (ns + 2 * w) ltac:(lia) ltac:(lia)) as Hsplit.
    unfold Py.gt. simpl.
    destruct (Z.ltb_spec upperbound (F ns (ns + w))) as [Hleft|Hright].
    + destruct (IH fuel (2 * n) ns upperbound) as (i & -> & Hi & Hb);
        [lia|lia|lia|lia|lia|].
      exists i. split; [reflexivity|]. split; lia.
    + destruct (IH fuel (2 * n + 1) (ns + w) (upperbound - F ns (ns + w)))
        as (i & -> & Hi & Hb); [lia|lia|lia|lia| |].
      { replace (ns + w + w) with (ns + 2 * w) by lia. lia. }
      exists i. split; [reflexivity|]. split; [lia|].
      rewrite (sum_split ns (ns + w) i), (sum_split ns (ns + w) (i + 1)) by lia.
      lia.
Qed.

Lemma sum_is_prefix (k depth : nat) j :
  cap = 2 ^ Z.of_nat k -> (k < depth)%nat -> 1 <= j <= cap ->
  SumSegmentTree.sum depth self 0 j = Ok (prefix_sum self j).
Proof.
  intros Hk Hd Hj. unfold SumSegmentTree.sum, prefix_sum.
  rewrite (operate_correct self 0 self_wf self_inv add_assoc_op add_left_id k)
    by (assumption || lia).
  unfold range_fold. rewrite self_add. reflexivity.
Qed.

End Bucket.

(** C1 as stated fails at the first leaf: [retrieve(0)] is index 0, and
    [sum(0, 0)] is not the empty sum but the whole total 10, which is
    above the upperbound. *)
Lemma retrieve_bucket_counterexample :
  well_formed sum_1234 /\ fold_invariant sum_1234 /\
  SumSegmentTree.sum 3 sum_1234 0 (SegmentTree.capacity sum_1234) = Ok 10 /\
  0 <= 0 < 10 /\
  SumSegmentTree.retrieve 3 sum_1234 0 = Ok 0 /\
  SumSegmentTree.sum 3 sum_1234 0 0 = Ok 10 /\
  ~ (10 <= 0).
Proof.
  split; [exact sum_1234_well_formed|]. split; [exact sum_1234_fold_invariant|].
  repeat split; lia.
Qed.

(** With binary64 rounding the upper bound of the bucket can fail as well:
    over the leaves [1e16, 1, 1, 1], [retrieve(1e16)] is index 2 while
    [sum(0, 3)] rounds to [1e16], which is not above the upperbound. *)
Lemma retrieve_bucket_binary64_rounding :
  SumSegmentTree.sum 3 sum_1e16 0 4 = Ok 10000000000000002%float /\
  SumSegmentTree.retrieve 3 sum_1e16 1e16%float = Ok 2 /\
  SumSegmentTree.sum 3 sum_1e16 0 2 = Ok 1e16%float /\
  SumSegmentTree.sum 3 sum_1e16 0 3 = Ok 1e16%float /\
  Py.lt 1e16%float 1e16%float = false.
Proof. repeat split; vm_compute; reflexivity. Qed.

(** C1, as the code has it, for numbers with exact arithmetic. On a
    [SumSegmentTree] of power-of-two capacity whose fold invariant holds and
    whose total [T = sum(0, capacity)] is positive, for [0 <= upperbound < T],
    [retrieve(upperbound)] returns an index [i] in [[0, capacity)] with
    [P(i) <= upperbound < P(i + 1)], where [P(j)] is the sum of the leaves
    at external indices below [j]; [sum(0, j)] is [P(j)] for every [j >= 1]
    (while [sum(0, 0)] is the total, not [P(0) = 0]). *)
Theorem retrieve_bucket (self : SegmentTree.t Z) (k depth fuel : nat) (T upperbound : Z) :
  well_formed self ->
  SegmentTree.capacity self = 2 ^ Z.of_nat k ->
  SegmentTree.operation self = Py.add ->
  fold_invariant self ->
  (k < depth)%nat -> (k <= fuel)%nat ->
  SumSegmentTree.sum depth self 0 (SegmentTree.capacity self) = Ok T ->
  0 < T ->
  0 <= upperbound < T ->
  exists i,
    SumSegmentTree.retrieve fuel self upperbound = Ok i /\
    0 <= i < SegmentTree.capacity self /\
    prefix_sum self i <= upperbound < prefix_sum self (i + 1) /\
    SumSegmentTree.sum depth self 0 (i + 1) = Ok (prefix_sum self (i + 1)) /\
    (1 <= i -> SumSegmentTree.sum depth self 0 i = Ok (prefix_sum self i)).
Proof.
  intros Hwf Hk Hadd Hinv Hd Hfuel HT Hpos Hub. pose proof Hwf as [Hcap Hlen].
  rewrite (sum_is_prefix self Hwf Hinv Hadd k) in HT by (assumption || lia).
  injection HT as HT.
  destruct (retrieve_loop_bucket self Hwf Hinv Hadd k fuel 1 0 upperbound)
    as (i & Hrun & Hi & Hb); [assumption|lia|lia|lia| |].
  { rewrite Z.add_0_l, <- Hk. fold (prefix_sum self (SegmentTree.capacity self)). lia. }
  exists i. split; [exact Hrun|]. split; [lia|]. split; [exact Hb|]. split.
  - apply (sum_is_prefix self Hwf Hinv Hadd k); lia.
  - intros Hi1. apply (sum_is_prefix self Hwf Hinv Hadd k); lia.
Qed.

Lemma retrieve_bucket_witness :
  exists i,
    SumSegmentTree.retrieve 2 sum_1234 3 = Ok i /\
    0 <= i < 4 /\
    prefix_sum sum_1234 i <= 3 < prefix_sum sum_1234 (i + 1) /\
    SumSegmentTree.sum 3 sum_1234 0 (i + 1) = Ok (prefix_sum sum_1234 (i + 1)) /\
    (1 <= i -> SumSegmentTree.sum 3 sum_1234 0 i = Ok (prefix_sum sum_1234 i)).
Proof.
  apply (retrieve_bucket sum_1234 2 3 2 10 3).
  - exact sum_1234_well_formed.
  - reflexivity.
  - reflexivity.
  - exact sum_1234_fold_invariant.
  - lia.
  - lia.
  - reflexivity.
  - lia.
  - lia.
Defined.

(** ** [MinSegmentTree] *)

Lemma min_init_slot (capacity s : Z) :
  0 <= s < 2 * capacity ->
  SegmentTree.slot (MinSegmentTree.__init__ capacity) s = Ok infinity.
Proof.
  intros Hs. apply slot_lookup; [lia|]. simpl. apply lookup_replicate_2. lia.
Qed.

Lemma min_init_root (capacity : Z) (depth : nat) :
  1 <= capacity -> (1 <= depth)%nat ->
  MinSegmentTree.min depth (MinSegmentTree.__init__ capacity) 0 0 = Ok infinity.
Proof.
  intros Hc Hd. destruct depth as [|depth]; [lia|].
  unfold MinSegmentTree.min, SegmentTree.operate. simpl.
  rewrite Z.eqb_refl. simpl. apply min_init_slot. lia.
Qed.

Lemma infinity_not_zero : infinity <> 0%float.
Proof.
  intros Heq. pose proof (f_equal (fun x => PrimFloat.eqb x infinity) Heq) as Hb.
  vm_compute in Hb. discriminate.
Qed.

(** C9. A freshly constructed [MinSegmentTree] holds [+infinity] in every
    slot, so [min(0, 0)] on an untouched tree is [+infinity], which is not
    zero; for capacity 8, [min(0, 0)] is [+infinity] on the untouched tree
    and [2.5] after [set(3, 2.5)] alone. *)
Theorem min_of_untouched_tree (depth : nat) :
  (1 <= depth)%nat ->
  (forall capacity, 1 <= capacity ->
     (forall s, 0 <= s < 2 * capacity ->
        SegmentTree.slot (MinSegmentTree.__init__ capacity) s = Ok infinity) /\
     MinSegmentTree.min depth (MinSegmentTree.__init__ capacity) 0 0 = Ok infinity) /\
  infinity <> 0%float /\
  MinSegmentTree.min depth (MinSegmentTree.__init__ 8) 0 0 = Ok infinity /\
  exists self',
    SegmentTree.__setitem__ (MinSegmentTree.__init__ 8) 3 2.5%float = (Ok tt, self') /\
    MinSegmentTree.min depth self' 0 0 = Ok 2.5%float.
Proof.
  intros Hd. split; [|split; [|split]].
  - intros capacity Hc. split; [apply min_init_slot|apply min_init_root; assumption].
  - exact infinity_not_zero.
  - apply min_init_root; [lia|assumption].
  - exists (snd (SegmentTree.__setitem__ (MinSegmentTree.__init__ 8) 3 2.5%float)).
    split; [vm_compute; reflexivity|].
    destruct depth as [|depth]; [lia|]. vm_compute. reflexivity.
Qed.

Lemma min_of_untouched_tree_witness :
  MinSegmentTree.min 1 (MinSegmentTree.__init__ 8) 0 0 = Ok infinity /\
  exists self',
    SegmentTree.__setitem__ (MinSegmentTree.__init__ 8) 3 2.5%float = (Ok tt, self') /\
    MinSegmentTree.min 1 self' 0 0 = Ok 2.5%float.
Proof.
  destruct (min_of_untouched_tree 1) as (_ & _ & Hfresh & Hset); [lia|].
  split; [exact Hfresh|exact Hset].
Defined.

(** ** The claims at sample inputs *)

Lemma fold_invariant_after_sets_witness :
  exists self',
    set_all (SegmentTree.__init__ 4 Z.add 0) [(0, 1); (1, 2); (2, 3); (3, 4)] = (Ok tt, self') /\
    forall i, 1 <= i < 4 ->
      exists x l r,
        SegmentTree.slot self' i = Ok x /\
        SegmentTree.slot self' (2 * i) = Ok l /\
        SegmentTree.slot self' (2 * i + 1) = Ok r /\
        x = l + r.
Proof.
  apply (fold_invariant_after_sets 4 Z.add 0 [(0, 1); (1, 2); (2, 3); (3, 4)]).
  - reflexivity.
  - repeat constructor; simpl; lia.
Defined.



Lemma setitem_frame_witness :
  exists self',
    SegmentTree.__setitem__ sum_1234 2 9 = (Ok tt, self') /\
    SegmentTree.slot self' 6 = Ok 9 /\
    SegmentTree.__getitem__ self' 3 = SegmentTree.__getitem__ sum_1234 3.
Proof.
  destruct (setitem_frame sum_1234 2 9) as (self' & Hrun & _ & Hleaf & _ & _ & Hget);
    [exact sum_1234_well_formed|simpl; lia|].
  exists self'. split; [exact Hrun|]. split; [exact Hleaf|].
  apply Hget; simpl; lia.
Defined.

Lemma getitem_after_setitem_witness :
  exists self',
    SegmentTree.__setitem__ sum_1234 2 9 = (Ok tt, self') /\
    SegmentTree.__getitem__ self' 2 = Ok 9.
Proof.
  apply (getitem_after_setitem sum_1234 2 9); [exact sum_1234_well_formed|simpl; lia].
Defined.

Lemma retrieve_descent_witness :
  (SumSegmentTree.retrieve_loop 3 sum_1234 1 3 = SumSegmentTree.retrieve_loop 2 sum_1234 3 0 /\
   exists i, SumSegmentTree.retrieve_loop 3 sum_1234 1 3 = Ok i /\ 0 <= i < 4 /\
             ancestor_or_self (4 + i) 3) /\
  (SumSegmentTree.retrieve_loop 3 sum_1234 1 2 = SumSegmentTree.retrieve_loop 2 sum_1234 2 2 /\
   exists i, SumSegmentTree.retrieve_loop 3 sum_1234 1 2 = Ok i /\ 0 <= i < 4 /\
             ancestor_or_self (4 + i) 2).
Proof.
  destruct (retrieve_descent 2 2 sum_1234 1 3 3) as (_ & _ & Htie);
    [exact sum_1234_well_formed|reflexivity|simpl; lia|lia|reflexivity|].
  destruct (retrieve_descent 2 2 sum_1234 1 2 3) as (Hleft & _ & _);
    [exact sum_1234_well_formed|reflexivity|simpl; lia|lia|reflexivity|].
  split; [apply Htie; reflexivity|apply Hleft; reflexivity].
Defined.

Lemma retrieve_all_zero_witness :
  exists i, SumSegmentTree.retrieve 2 (SumSegmentTree.__init__ 4) 0%float = Ok i /\
            0 <= i < 4.
Proof.
  apply (retrieve_all_zero (SumSegmentTree.__init__ 4) 2 2 0%float).
  - split; simpl; lia.
  - reflexivity.
  - intros j Hj. simpl in Hj.
    assert (j = 0 \/ j = 1 \/ j = 2 \/ j = 3) as [->|[->|[->| ->]]] by lia; reflexivity.
  - lia.
Defined.

(** The tie-break on floats: over the leaves [1.0, 1.0], [retrieve(1.0)]
    takes the right branch; on an all-zero tree [retrieve(0.0)] is the last
    index. *)
Lemma retrieve_tie_binary64 :
  SumSegmentTree.retrieve 1
    (SegmentTree.Make 2 [0%float; 2%float; 1%float; 1%float] Py.add) 1%float = Ok 1 /\
  SumSegmentTree.retrieve 3 (SumSegmentTree.__init__ 8) 0%float = Ok 7.
Proof. split; vm_compute; reflexivity. Qed.


(** With binary64 addition, which is not associative, the tree fold and
    the naive left-to-right fold can round differently: over the leaves
    [1e16, 1, 1, 1] the first is [1e16 + 2] and the second [1e16]. *)
Lemma operate_binary64_rounding :
  SegmentTree.operate 3 sum_1e16 0 4 = Ok 10000000000000002%float /\
  naive_fold Py.add 0%float (range (leaves sum_1e16) 0 4) = 1e16%float.
Proof. split; vm_compute; reflexivity. Qed.

(** ** The end-to-end scenarios of the specification *)

Lemma scenario_sum :
  SumSegmentTree.sum 3 sum_1234 0 0 = Ok 10 /\
  SumSegmentTree.retrieve 2 sum_1234 0 = Ok 0 /\
  SumSegmentTree.retrieve 2 sum_1234 3 = Ok 2 /\
  SumSegmentTree.retrieve 2 sum_1234 9 = Ok 3.
Proof. repeat split. Qed.

Lemma scenario_min :
  exists self,
    set_all (MinSegmentTree.__init__ 4) [(0, 5%float); (1, 1%float); (2, 3%float)] =
      (Ok tt, self) /\
    SegmentTree.__getitem__ self 3 = Ok infinity /\
    MinSegmentTree.min 3 self 0 0 = Ok 1%float /\
    MinSegmentTree.min 3 self 2 4 = Ok 3%float.
Proof.
  exists (snd (set_all (MinSegmentTree.__init__ 4)
                 [(0, 5%float); (1, 1%float); (2, 3%float)])).
  repeat split; vm_compute; reflexivity.
Qed.

(** ** [operate] outside its contract *)

Section OperateMisuse.
Context {V : Type}.
Implicit Types (self : SegmentTree.t V).

(** A query whose inclusive end lies before its start matches no node and
    never splits: the recursion only stops at the interpreter's limit. *)
Lemma operate_helper_reversed (depth : nat) self : forall start end_ node ns ne,
  end_ < start -> ns <= ne -> end_ <= ne ->
  SegmentTree._operate_helper depth self start end_ node ns ne = Raise RecursionError.
Proof.
  induction depth as [|depth IH]; intros start end_ node ns ne Hrev Hn Hend; simpl;
    [reflexivity|].
  destruct (Z.eqb_spec start ns) as [->|Hs]; simpl.
  - destruct (Z.eqb_spec end_ ne) as [->|He]; [lia|].
    assert (Hmid : ns <= (ns + ne) / 2 <= ne)
      by (split; [apply Z.div_le_lower_bound|apply Z.div_le_upper_bound]; lia).
    destruct (Z.leb_spec end_ ((ns + ne) / 2)); [apply IH; lia|].
    destruct (Z.leb_spec ((ns + ne) / 2 + 1) ns); [apply IH; lia|lia].
  - assert (Hmid : ns <= (ns + ne) / 2 <= ne)
      by (split; [apply Z.div_le_lower_bound|apply Z.div_le_upper_bound]; lia).
    destruct (Z.leb_spec end_ ((ns + ne) / 2)); [apply IH; lia|].
    destruct (Z.leb_spec ((ns + ne) / 2 + 1) start); [apply IH; lia|lia].
Qed.

(** A query that starts before the node's range does the same: whenever it
    splits, the left half is evaluated first and starts before its node
    again. *)
Lemma operate_helper_start_before (depth : nat) self : forall start end_ node ns ne,
  start < ns -> ns <= ne ->
  SegmentTree._operate_helper depth self start end_ node ns ne = Raise RecursionError.
Proof.
  induction depth as [|depth IH]; intros start end_ node ns ne Hs Hn; simpl;
    [reflexivity|].
  destruct (Z.eqb_spec start ns) as [->|_]; [lia|]. simpl.
  assert (Hmid : ns <= (ns + ne) / 2 <= ne)
    by (split; [apply Z.div_le_lower_bound|apply Z.div_le_upper_bound]; lia).
  destruct (Z.leb_spec end_ ((ns + ne) / 2)); [apply IH; lia|].
  destruct (Z.leb_spec ((ns + ne) / 2 + 1) start); [lia|].
  rewrite IH by lia. reflexivity.
Qed.

(** X1. [operate(start, end)] with [0 < end <= capacity] and [start >= end]
    (an empty or reversed range) returns no value: whatever the recursion
    limit, the call ends in [RecursionError]. *)
Theorem operate_empty_range (depth : nat) self (start end_ : Z) :
  0 < end_ <= SegmentTree.capacity self -> end_ <= start ->
  SegmentTree.operate depth self start end_ = Raise RecursionError.
Proof.
  intros Hend Hrev. unfold SegmentTree.operate. cbv zeta.
  destruct (Z.leb_spec end_ 0); [lia|].
  apply operate_helper_reversed; lia.
Qed.

(** X2. [operate(start, end)] with a negative [start] returns no value
    either, for every [end]: the call ends in [RecursionError] whatever the
    recursion limit. *)
Theorem operate_negative_start (depth : nat) self (start end_ : Z) :
  1 <= SegmentTree.capacity self -> start < 0 ->
  SegmentTree.operate depth self start end_ = Raise RecursionError.
Proof.
  intros Hcap Hs. unfold SegmentTree.operate. cbv zeta.
  apply operate_helper_start_before; lia.
Qed.

(** On a well-formed tree a query inside a node's range returns a value,
    whatever the slots hold. *)
Lemma operate_helper_returns self (h : nat) : forall depth n ns ne start end_,
  well_formed self ->
  (h < depth)%nat ->
  n * 2 ^ Z.of_nat h = SegmentTree.capacity self + ns -> 0 <= ns ->
  ne = ns + 2 ^ Z.of_nat h - 1 -> ne < SegmentTree.capacity self ->
  ns <= start <= end_ -> end_ <= ne ->
  exists v, SegmentTree._operate_helper depth self start end_ n ns ne = Ok v.
Proof.
  induction h as [|h IH]; intros depth n ns ne start end_ Hwf Hd Hn Hns Hne Hfit Hse Hend;
    (destruct depth as [|depth]; [lia|]); simpl; pose proof Hwf as [Hcap Hlen].
  - change (2 ^ Z.of_nat 0) with 1 in *.
    assert (start = ns /\ end_ = ne) as [-> ->] by lia.
    rewrite !Z.eqb_refl. simpl.
    destruct (getitem_front (SegmentTree.tree self) n) as (x & _ & Hx); [lia|].
    exists x. exact Hx.
  - rewrite Nat2Z.inj_succ, Z.pow_succ_r in * by lia.
    set (w := 2 ^ Z.of_nat h) in *.
    assert (Hw : 0 < w) by (apply Z.pow_pos_nonneg; lia).
    destruct ((start =? ns) && (end_ =? ne)) eqn:Hhit.
    + destruct (getitem_front (SegmentTree.tree self) n) as (x & _ & Hx); [nia|].
      exists x. exact Hx.
    + assert (Hmid : (ns + ne) / 2 = ns + w - 1)
        by (symmetry; apply (Z.div_unique _ _ _ 1); lia).
      rewrite Hmid.
      destruct (Z.leb_spec end_ (ns + w - 1)) as [Hleft|Hleft].
      * apply (IH depth (2 * n) ns); auto; lia.
      * destruct (Z.leb_spec (ns + w - 1 + 1) start) as [Hright|Hright].
        -- apply (IH depth (2 * n + 1) (ns + w - 1 + 1)); auto; lia.
        -- destruct (IH depth (2 * n) ns (ns + w - 1) start (ns + w - 1)) as (l & ->);
             auto; try lia.
           destruct (IH depth (2 * n + 1) (ns + w - 1 + 1) ne (ns + w - 1 + 1) end_)
             as (r & ->); auto; try lia.
           simpl. eauto.
Qed.

(** A query that starts inside a node's range and ends beyond it reaches
    the last leaf below the node, splits there, and reads a slot past the
    end of the list. *)
Lemma operate_helper_end_beyond self (h : nat) : forall depth n ns ne start end_,
  well_formed self ->
  (S h < depth)%nat ->
  n * 2 ^ Z.of_nat h = SegmentTree.capacity self + ns -> 0 <= ns ->
  ne = ns + 2 ^ Z.of_nat h - 1 -> ne < SegmentTree.capacity self ->
  ns <= start <= ne -> ne < end_ ->
  SegmentTree._operate_helper depth self start end_ n ns ne = Raise IndexError.
Proof.
  induction h as [|h IH]; intros depth n ns ne start end_ Hwf Hd Hn Hns Hne Hfit Hs Hend;
    (destruct depth as [|depth]; [lia|]); simpl; pose proof Hwf as [Hcap Hlen].
  - change (2 ^ Z.of_nat 0) with 1 in *.
    assert (start = ns) as -> by lia. assert (ne = ns) as -> by lia.
    rewrite Z.eqb_refl. destruct (Z.eqb_spec end_ ns); [lia|]. simpl.
    assert (Hmid : (ns + ns) / 2 = ns)
      by (symmetry; apply (Z.div_unique _ _ _ 0); lia).
    rewrite Hmid.
    destruct (Z.leb_spec end_ ns); [lia|].
    destruct (Z.leb_spec (ns + 1) ns); [lia|].
    destruct depth as [|depth]; [lia|]. simpl. rewrite !Z.eqb_refl. simpl.
    unfold SegmentTree.slot, Py.getitem. rewrite index_beyond by lia. reflexivity.
  - rewrite Nat2Z.inj_succ, Z.pow_succ_r in * by lia.
    set (w := 2 ^ Z.of_nat h) in *.
    assert (Hw : 0 < w) by (apply Z.pow_pos_nonneg; lia).
    destruct (Z.eqb_spec end_ ne); [lia|]. rewrite andb_false_r.
    assert (Hmid : (ns + ne) / 2 = ns + w - 1)
      by (symmetry; apply (Z.div_unique _ _ _ 1); lia).
    rewrite Hmid.
    destruct (Z.leb_spec end_ (ns + w - 1)); [lia|].
    destruct (Z.leb_spec (ns + w - 1 + 1) start) as [Hright|Hright].
    + apply (IH depth (2 * n + 1) (ns + w - 1 + 1)); auto; lia.
    + destruct (operate_helper_returns self h depth (2 * n) ns (ns + w - 1) start (ns + w - 1))
        as (l & ->); auto; try lia.
      rewrite (IH depth (2 * n + 1) (ns + w - 1 + 1) ne (ns + w - 1 + 1) end_);
        auto; lia.
Qed.

(** X3. On a well-formed tree of capacity [2^k], [operate(start, end)] with
    an in-range [start] and [end > capacity] raises [IndexError] (given
    more than [k + 1] frames): the query reads slot [2 * (2 * capacity - 1)]. *)
Theorem operate_end_beyond_capacity (k depth : nat) self (start end_ : Z) :
  well_formed self ->
  SegmentTree.capacity self = 2 ^ Z.of_nat k ->
  (S k < depth)%nat ->
  0 <= start < SegmentTree.capacity self -> SegmentTree.capacity self < end_ ->
  SegmentTree.operate depth self start end_ = Raise IndexError.
Proof.
  intros Hwf Hk Hd Hs Hend. unfold SegmentTree.operate. cbv zeta.
  destruct (Z.leb_spec end_ 0); [lia|].
  apply (operate_helper_end_beyond self k); auto; lia.
Qed.

End OperateMisuse.

Lemma operate_empty_range_witness :
  SegmentTree.operate 50 sum_1234 2 2 = Raise RecursionError.
Proof. apply (operate_empty_range 50 sum_1234 2 2); simpl; lia. Defined.

Lemma operate_negative_start_witness :
  SegmentTree.operate 50 sum_1234 (-1) 2 = Raise RecursionError.
Proof. apply (operate_negative_start 50 sum_1234 (-1) 2); simpl; lia. Defined.

Lemma operate_end_beyond_capacity_witness :
  SegmentTree.operate 4 sum_1234 0 5 = Raise IndexError.
Proof.
  apply (operate_end_beyond_capacity 2 4 sum_1234 0 5);
    [exact sum_1234_well_formed|reflexivity|lia|simpl; lia|simpl; lia].
Defined.

(** ** The tree as an array with range folds *)

Section ArrayModel.
Context {V : Type}.
Implicit Types (self : SegmentTree.t V) (val : V).

(** An in-range write replaces one leaf and leaves the unused slot 0 alone. *)
Lemma setitem_effect self idx val :
  well_formed self -> 0 <= idx < SegmentTree.capacity self ->
  exists self',
    SegmentTree.__setitem__ self idx val = (Ok tt, self') /\
    SegmentTree.capacity self' = SegmentTree.capacity self /\
    SegmentTree.operation self' = SegmentTree.operation self /\
    well_formed self' /\
    leaves self' = <[Z.to_nat idx := val]> (leaves self) /\
    SegmentTree.tree self' !! 0%nat = SegmentTree.tree self !! 0%nat.
Proof.
  intros Hwf Hidx. pose proof Hwf as [Hcap Hlen].
  destruct (setitem_in_range self idx val Hwf Hidx)
    as (tr' & Hrun & Hlen' & Hleaf & Hframe & _).
  set (p := idx + SegmentTree.capacity self) in *.
  set (self' := SegmentTree.Make (SegmentTree.capacity self) tr' (SegmentTree.operation self)).
  assert (Hwf' : well_formed self') by (split; simpl; [assumption|rewrite Hlen'; exact Hlen]).
  exists self'. split; [exact Hrun|]. split; [reflexivity|]. split; [reflexivity|].
  split; [exact Hwf'|]. split.
  - apply list_eq. intros j.
    replace j with (Z.to_nat (Z.of_nat j)) by lia.
    rewrite (leaves_lookup self' Hwf') by lia. simpl.
    destruct (decide (Z.of_nat j = idx)) as [<-|Hne].
    + rewrite Z.add_comm. fold p. rewrite Hleaf. symmetry.
      apply list_lookup_insert_eq. pose proof (leaves_length self Hwf). lia.
    + rewrite list_lookup_insert_ne by lia.
      rewrite (leaves_lookup self Hwf) by lia.
      apply Hframe; [lia|].
      apply (other_leaf_off_walk (SegmentTree.capacity self)); lia.
  - unfold SegmentTree.__setitem__ in Hrun. cbv zeta in Hrun. fold p in Hrun.
    rewrite setitem_front in Hrun by lia.
    assert (Hhalf : 0 <= p / 2 <= p)
      by (split; [apply Z.div_pos|apply Z.div_le_upper_bound]; lia).
    assert (Hdm : p = 2 * (p / 2) + p mod 2) by (apply Z.div_mod; lia).
    assert (Hmod : 0 <= p mod 2 < 2) by (apply Z.mod_pos_bound; lia).
    destruct (setitem_loop_spec (SegmentTree.operation self) (p / 2)
                (<[Z.to_nat p := val]> (SegmentTree.tree self)))
      as (tr2 & Hloop & _ & Hframe2 & _); [lia|rewrite length_insert; lia|].
    rewrite Hloop in Hrun. injection Hrun as <-. simpl.
    change 0%nat with (Z.to_nat 0). rewrite Hframe2 by lia.
    apply lookup_insert_Z; lia.
Qed.

Lemma set_all_effect self writes :
  well_formed self ->
  Forall (fun w => 0 <= fst w < SegmentTree.capacity self) writes ->
  exists self',
    set_all self writes = (Ok tt, self') /\
    SegmentTree.capacity self' = SegmentTree.capacity self /\
    SegmentTree.operation self' = SegmentTree.operation self /\
    well_formed self' /\
    leaves self' = apply_writes (leaves self) writes /\
    SegmentTree.tree self' !! 0%nat = SegmentTree.tree self !! 0%nat.
Proof.
  intros Hwf Hall. revert self Hwf Hall.
  induction writes as [|[idx val] writes IH]; intros self Hwf Hall.
  - exists self. repeat split; auto; apply Hwf.
  - apply Forall_cons in Hall as [Hidx Hall]. simpl in Hidx.
    destruct (setitem_effect self idx val Hwf Hidx)
      as (self1 & Hrun & Hcap & Hop & Hwf1 & Hleaves & Hzero).
    destruct (IH self1 Hwf1) as (self' & Hrun' & Hcap' & Hop' & Hwf' & Hleaves' & Hzero').
    { rewrite Hcap. exact Hall. }
    exists self'. simpl. rewrite Hrun. split; [exact Hrun'|].
    split; [congruence|]. split; [congruence|]. split; [exact Hwf'|].
    split; [|congruence]. rewrite Hleaves', Hleaves. reflexivity.
Qed.

(** X4. An in-range [set(idx, val)] acts on the leaves as the list
    assignment [leaves[idx] = val]: the leaves afterwards are the leaves
    before with position [idx] replaced. *)
Theorem leaves_after_setitem self idx val :
  well_formed self -> 0 <= idx < SegmentTree.capacity self ->
  exists self',
    SegmentTree.__setitem__ self idx val = (Ok tt, self') /\
    leaves self' = <[Z.to_nat idx := val]> (leaves self).
Proof.
  intros Hwf Hidx.
  destruct (setitem_effect self idx val Hwf Hidx) as (self' & Hrun & _ & _ & _ & Hl & _).
  exists self'. auto.
Qed.

(** X5. The tree implements an array with range folds. Starting from a
    fresh tree of capacity [2^k] whose operation is associative with the
    fill value as left identity, after any sequence of in-range writes
    every query [operate(start, end)] with [0 <= start < end <= capacity]
    returns the naive fold over positions [start, ..., end - 1] of the
    plain array obtained by doing the same writes on [capacity] copies of
    the fill value. *)
Theorem operate_after_sets_is_array_fold
    (k depth : nat) (op : V -> V -> V) (identity : V) (writes : list (Z * V))
    (start end_ : Z) :
  (forall a b c, op a (op b c) = op (op a b) c) ->
  (forall a, op identity a = a) ->
  Forall (fun w => 0 <= fst w < 2 ^ Z.of_nat k) writes ->
  (k < depth)%nat ->
  0 <= start < end_ -> end_ <= 2 ^ Z.of_nat k ->
  exists self',
    set_all (SegmentTree.__init__ (2 ^ Z.of_nat k) op identity) writes = (Ok tt, self') /\
    SegmentTree.operate depth self' start end_ =
    Ok (naive_fold op identity
          (range (apply_writes (replicate (Z.to_nat (2 ^ Z.of_nat k)) identity) writes)
             start end_)).
Proof.
  intros Hassoc Hid Hall Hd Hse Hend.
  assert (Hpos : 0 < 2 ^ Z.of_nat k) by (apply Z.pow_pos_nonneg; lia).
  set (c := 2 ^ Z.of_nat k) in *.
  set (fresh := SegmentTree.__init__ c op identity).
  assert (Hwf : well_formed fresh) by (apply init_well_formed; lia).
  assert (Hinv : fold_invariant fresh) by (apply init_fold_invariant, Hid).
  destruct (set_all_keeps_invariant fresh writes Hwf Hinv Hall)
    as (self' & Hrun & Hcap & Hop & Hwf' & Hinv').
  destruct (set_all_effect fresh writes Hwf Hall)
    as (self2 & Hrun2 & _ & _ & _ & Hleaves & _).
  rewrite Hrun in Hrun2. injection Hrun2 as <-.
  exists self'. split; [exact Hrun|]. simpl in Hcap, Hop.
  rewrite (operate_correct self' identity Hwf' Hinv') with (k := k).
  - unfold range_fold. rewrite Hop, Hleaves. do 3 f_equal.
    unfold leaves, fresh, SegmentTree.__init__.
    cbn [SegmentTree.tree SegmentTree.capacity].
    rewrite drop_replicate.
    replace (Z.to_nat (2 * c) - Z.to_nat c)%nat with (Z.to_nat c) by lia.
    reflexivity.
  - rewrite Hop. exact Hassoc.
  - rewrite Hop. exact Hid.
  - exact Hcap.
  - exact Hd.
  - exact Hse.
  - rewrite Hcap. exact Hend.
Qed.

(** Two well-formed trees with the same capacity, operation, leaves and
    unused slot 0, both satisfying the fold invariant, are equal. *)
Lemma tree_determined_by_leaves (t1 t2 : SegmentTree.t V) :
  well_formed t1 -> well_formed t2 ->
  SegmentTree.capacity t1 = SegmentTree.capacity t2 ->
  SegmentTree.operation t1 = SegmentTree.operation t2 ->
  fold_invariant t1 -> fold_invariant t2 ->
  leaves t1 = leaves t2 ->
  SegmentTree.tree t1 !! 0%nat = SegmentTree.tree t2 !! 0%nat ->
  t1 = t2.
Proof.
  intros Hwf1 Hwf2 Hcap Hop Hinv1 Hinv2 Hleaves Hzero.
  pose proof Hwf1 as [Hc1 Hlen1]. pose proof Hwf2 as [Hc2 Hlen2].
  set (c := SegmentTree.capacity t1) in *.
  assert (Hnodes : forall m : nat, forall n,
            1 <= n -> 2 * c - n <= Z.of_nat m ->
            SegmentTree.tree t1 !! Z.to_nat n = SegmentTree.tree t2 !! Z.to_nat n).
  { induction m as [|m IH]; intros n Hn Hm.
    - rewrite !lookup_ge_None_2 by lia. reflexivity.
    - destruct (decide (c <= n)) as [Hleaf|Hinner].
      + replace n with (c + (n - c)) by lia. unfold c at 1. rewrite Hcap at 2.
        rewrite <- (leaves_lookup t1 Hwf1), <- (leaves_lookup t2 Hwf2) by lia.
        rewrite Hleaves. reflexivity.
      + destruct (proj1 (fold_invariant_nodes t1 Hwf1) Hinv1 n ltac:(fold c; lia))
          as (l1 & r1 & Hl1 & Hr1 & Hx1).
        destruct (proj1 (fold_invariant_nodes t2 Hwf2) Hinv2 n ltac:(lia))
          as (l2 & r2 & Hl2 & Hr2 & Hx2).
        rewrite (IH (2 * n)) in Hl1 by lia. rewrite (IH (2 * n + 1)) in Hr1 by lia.
        rewrite Hx1, Hx2, Hop. congruence. }
  assert (Htree : SegmentTree.tree t1 = SegmentTree.tree t2).
  { apply list_eq. intros [|i]; [exact Hzero|].
    replace (S i) with (Z.to_nat (Z.of_nat (S i))) by lia.
    apply (Hnodes (Z.to_nat (2 * c))); lia. }
  destruct t1, t2. simpl in *. subst. reflexivity.
Qed.

End ArrayModel.

(** ** Writes that change nothing, commute or overwrite *)

Section WriteAlgebra.
Context {V : Type}.
Implicit Types (self : SegmentTree.t V) (val : V).

(** X6. On a tree whose fold invariant holds, writing back the value just
    read, [set(i, get(i))], leaves the whole tree exactly as it was. *)
Theorem setitem_same_value self idx val :
  well_formed self -> fold_invariant self ->
  0 <= idx < SegmentTree.capacity self ->
  SegmentTree.__getitem__ self idx = Ok val ->
  SegmentTree.__setitem__ self idx val = (Ok tt, self).
Proof.
  intros Hwf Hinv Hidx Hget. pose proof Hwf as [Hcap Hlen].
  destruct (setitem_keeps_invariant self idx val Hwf Hidx Hinv)
    as (self' & Hrun & Hcap' & Hop' & Hwf' & Hinv').
  destruct (setitem_effect self idx val Hwf Hidx)
    as (self2 & Hrun2 & _ & _ & _ & Hleaves & Hzero).
  rewrite Hrun in Hrun2. injection Hrun2 as <-.
  rewrite Hrun. f_equal.
  apply tree_determined_by_leaves; auto.
  rewrite Hleaves. apply list_insert_id.
  rewrite (leaves_lookup self Hwf) by lia.
  apply getitem_Ok_front; [lia|exact Hget].
Qed.

(** X7. On a tree whose fold invariant holds, writes to two different
    in-range indices commute: either order ends in the same tree. *)
Theorem setitem_commute self (i j : Z) (v w : V) :
  well_formed self -> fold_invariant self ->
  0 <= i < SegmentTree.capacity self -> 0 <= j < SegmentTree.capacity self ->
  i <> j ->
  exists final,
    set_all self [(i, v); (j, w)] = (Ok tt, final) /\
    set_all self [(j, w); (i, v)] = (Ok tt, final).
Proof.
  intros Hwf Hinv Hi Hj Hne.
  assert (Hall1 : Forall (fun x : Z * V => 0 <= fst x < SegmentTree.capacity self)
                    [(i, v); (j, w)]) by (repeat constructor; simpl; lia).
  assert (Hall2 : Forall (fun x : Z * V => 0 <= fst x < SegmentTree.capacity self)
                    [(j, w); (i, v)]) by (repeat constructor; simpl; lia).
  destruct (set_all_keeps_invariant self _ Hwf Hinv Hall1)
    as (t1 & Hrun1 & Hcap1 & Hop1 & Hwf1 & Hinv1).
  destruct (set_all_keeps_invariant self _ Hwf Hinv Hall2)
    as (t2 & Hrun2 & Hcap2 & Hop2 & Hwf2 & Hinv2).
  destruct (set_all_effect self _ Hwf Hall1) as (t1' & Hrun1' & _ & _ & _ & Hl1 & Hz1).
  destruct (set_all_effect self _ Hwf Hall2) as (t2' & Hrun2' & _ & _ & _ & Hl2 & Hz2).
  rewrite Hrun1 in Hrun1'. injection Hrun1' as <-.
  rewrite Hrun2 in Hrun2'. injection Hrun2' as <-.
  exists t1. split; [exact Hrun1|]. rewrite Hrun2. f_equal. symmetry.
  apply tree_determined_by_leaves; auto; try congruence.
  rewrite Hl1, Hl2. unfold apply_writes. simpl.
  apply list_insert_insert_ne. lia.
Qed.

(** X8. On a tree whose fold invariant holds, a second write to the same
    in-range index makes the first one unobservable: [set(i, v); set(i, w)]
    ends in the same tree as [set(i, w)] alone. *)
Theorem setitem_overwrite self (i : Z) (v w : V) :
  well_formed self -> fold_invariant self ->
  0 <= i < SegmentTree.capacity self ->
  exists final,
    set_all self [(i, v); (i, w)] = (Ok tt, final) /\
    SegmentTree.__setitem__ self i w = (Ok tt, final).
Proof.
  intros Hwf Hinv Hi.
  assert (Hall1 : Forall (fun x : Z * V => 0 <= fst x < SegmentTree.capacity self)
                    [(i, v); (i, w)]) by (repeat constructor; simpl; lia).
  destruct (set_all_keeps_invariant self _ Hwf Hinv Hall1)
    as (t1 & Hrun1 & Hcap1 & Hop1 & Hwf1 & Hinv1).
  destruct (set_all_effect self _ Hwf Hall1) as (t1' & Hrun1' & _ & _ & _ & Hl1 & Hz1).
  rewrite Hrun1 in Hrun1'. injection Hrun1' as <-.
  destruct (setitem_keeps_invariant self i w Hwf Hi Hinv)
    as (t2 & Hrun2 & Hcap2 & Hop2 & Hwf2 & Hinv2).
  destruct (setitem_effect self i w Hwf Hi) as (t2' & Hrun2' & _ & _ & _ & Hl2 & Hz2).
  rewrite Hrun2 in Hrun2'. injection Hrun2' as <-.
  exists t1. split; [exact Hrun1|]. rewrite Hrun2. f_equal. symmetry.
  apply tree_determined_by_leaves; auto; try congruence.
  rewrite Hl1, Hl2. unfold apply_writes. simpl.
  apply list_insert_insert_eq.
Qed.

(** X9. Range folds compose: under the hypotheses of the fold-correctness
    property, for [0 <= a < b < c <= capacity] the answer to
    [operate(a, c)] is the operation applied to the answers to
    [operate(a, b)] and [operate(b, c)]. *)
Theorem operate_split_range self (identity : V) (k depth : nat) (a b c : Z) :
  well_formed self ->
  SegmentTree.capacity self = 2 ^ Z.of_nat k ->
  fold_invariant self ->
  (forall x y z, SegmentTree.operation self x (SegmentTree.operation self y z) =
                 SegmentTree.operation self (SegmentTree.operation self x y) z) ->
  (forall x, SegmentTree.operation self identity x = x) ->
  (k < depth)%nat ->
  0 <= a < b -> b < c -> c <= SegmentTree.capacity self ->
  exists x y,
    SegmentTree.operate depth self a b = Ok x /\
    SegmentTree.operate depth self b c = Ok y /\
    SegmentTree.operate depth self a c = Ok (SegmentTree.operation self x y).
Proof.
  intros Hwf Hk Hinv Hassoc Hid Hd Hab Hbc Hc.
  exists (range_fold self identity a b), (range_fold self identity b c).
  rewrite !(operate_correct self identity Hwf Hinv Hassoc Hid k) by (assumption || lia).
  repeat split. f_equal. unfold range_fold.
  apply naive_fold_range; auto; try lia.
  rewrite (leaves_length self Hwf). lia.
Qed.

End WriteAlgebra.

Lemma sum_acc (xs : list Z) (a : Z) : fold_left Z.add xs a = a + fold_left Z.add xs 0.
Proof.
  rewrite <- (Z.add_0_r a) at 1. apply fold_left_shift. intros; lia.
Qed.

Lemma sum_insert (xs : list Z) (i : nat) (old v : Z) :
  xs !! i = Some old ->
  fold_left Z.add (<[i := v]> xs) 0 = fold_left Z.add xs 0 - old + v.
Proof.
  revert i. induction xs as [|x xs IH]; intros [|i] Hi; try discriminate; simpl in *.
  - injection Hi as ->. rewrite (sum_acc xs (0 + v)), (sum_acc xs (0 + old)). lia.
  - rewrite (sum_acc (<[i:=v]> xs) (0 + x)), (sum_acc xs (0 + x)), (IH i Hi). lia.
Qed.

(** X10. On a [SumSegmentTree] with exact arithmetic, an in-range
    [set(i, v)] moves the total [sum()] by the change of that leaf: the new
    total is the old total minus the old value of leaf [i] plus [v]. *)
Theorem total_after_setitem (self : SegmentTree.t Z) (k depth : nat) (idx v old T : Z) :
  well_formed self ->
  SegmentTree.capacity self = 2 ^ Z.of_nat k ->
  SegmentTree.operation self = Py.add ->
  fold_invariant self ->
  (k < depth)%nat ->
  0 <= idx < SegmentTree.capacity self ->
  SegmentTree.__getitem__ self idx = Ok old ->
  SumSegmentTree.sum depth self 0 0 = Ok T ->
  exists self',
    SegmentTree.__setitem__ self idx v = (Ok tt, self') /\
    SumSegmentTree.sum depth self' 0 0 = Ok (T - old + v).
Proof.
  intros Hwf Hk Hadd Hinv Hd Hidx Hget HT. pose proof Hwf as [Hcap Hlen].
  assert (Hassoc : forall s : SegmentTree.t Z, SegmentTree.operation s = Py.add ->
            forall a b c, SegmentTree.operation s a (SegmentTree.operation s b c) =
                          SegmentTree.operation s (SegmentTree.operation s a b) c)
    by (intros s -> a b c; simpl; lia).
  assert (Hid : forall s : SegmentTree.t Z, SegmentTree.operation s = Py.add ->
            forall a, SegmentTree.operation s 0 a = a)
    by (intros s -> a; reflexivity).
  destruct (setitem_keeps_invariant self idx v Hwf Hidx Hinv)
    as (self' & Hrun & Hcap' & Hop' & Hwf' & Hinv').
  destruct (setitem_effect self idx v Hwf Hidx)
    as (self2 & Hrun2 & _ & _ & _ & Hleaves & _).
  rewrite Hrun in Hrun2. injection Hrun2 as <-.
  exists self'. split; [exact Hrun|].
  unfold SumSegmentTree.sum in *.
  rewrite (operate_0_0_folds_all self 0 k depth Hwf Hk Hinv (Hassoc self Hadd) (Hid self Hadd) Hd)
    in HT.
  injection HT as <-.
  rewrite (operate_0_0_folds_all self' 0 k depth Hwf') by
    (try apply Hassoc; try apply Hid; congruence || assumption).
  f_equal. rewrite Hop', Hadd, Hleaves. unfold naive_fold. simpl.
  apply sum_insert.
  rewrite (leaves_lookup self Hwf) by lia.
  apply getitem_Ok_front; [lia|exact Hget].
Qed.

(** ** [retrieve]: further properties in exact arithmetic *)

Lemma sum_nonneg (xs : list Z) :
  Forall (fun v => 0 <= v) xs -> 0 <= fold_left Z.add xs 0.
Proof.
  induction 1 as [|x xs Hx _ IH]; simpl; [lia|]. rewrite sum_acc. lia.
Qed.

Lemma leaf_sum_nonneg (self : SegmentTree.t Z) (a b : Z) :
  Forall (fun v => 0 <= v) (leaves self) -> 0 <= leaf_sum self a b.
Proof.
  intros Hpos. unfold leaf_sum, naive_fold, range.
  apply sum_nonneg, Forall_take, Forall_drop, Hpos.
Qed.

Lemma leaf_sum_one (self : SegmentTree.t Z) (i v : Z) :
  well_formed self -> 0 <= i ->
  SegmentTree.__getitem__ self i = Ok v -> leaf_sum self i (i + 1) = v.
Proof.
  intros Hwf Hi Hget. pose proof Hwf as [Hcap Hlen]. unfold leaf_sum.
  rewrite (range_one _ i v); [reflexivity|lia|].
  rewrite (leaves_lookup self Hwf) by lia.
  apply getitem_Ok_front; [lia|exact Hget].
Qed.

Lemma prefix_sum_mono (self : SegmentTree.t Z) (a b : Z) :
  Forall (fun v => 0 <= v) (leaves self) -> 0 <= a <= b ->
  prefix_sum self a <= prefix_sum self b.
Proof.
  intros Hpos Hab. unfold prefix_sum. rewrite (sum_split self 0 a b) by lia.
  pose proof (leaf_sum_nonneg self a b Hpos). lia.
Qed.

Section BucketMore.
Variable self : SegmentTree.t Z.
Variable k : nat.
Hypothesis self_wf : well_formed self.
Hypothesis self_cap : SegmentTree.capacity self = 2 ^ Z.of_nat k.
Hypothesis self_add : SegmentTree.operation self = Py.add.
Hypothesis self_inv : fold_invariant self.

Local Abbreviation cap := (SegmentTree.capacity self).

(** The bucket of an in-contract upperbound, from the root. *)
Lemma retrieve_root_bucket (fuel : nat) (upperbound : Z) :
  (k <= fuel)%nat -> 0 <= upperbound < prefix_sum self cap ->
  exists i, SumSegmentTree.retrieve fuel self upperbound = Ok i /\
            0 <= i < cap /\
            prefix_sum self i <= upperbound < prefix_sum self (i + 1).
Proof.
  intros Hfuel Hub. pose proof self_wf as [Hcap Hlen].
  destruct (retrieve_loop_bucket self self_wf self_inv self_add k fuel 1 0 upperbound)
    as (i & Hrun & Hi & Hb); [assumption|lia|lia|lia| |].
  { rewrite Z.add_0_l, <- self_cap. exact Hub. }
  exists i. split; [exact Hrun|]. split; [lia|exact Hb].
Qed.

Lemma total_is_prefix (depth : nat) (T : Z) :
  (k < depth)%nat -> SumSegmentTree.sum depth self 0 cap = Ok T -> T = prefix_sum self cap.
Proof.
  intros Hd HT. pose proof self_wf as [Hcap Hlen].
  rewrite (sum_is_prefix self self_wf self_inv self_add k) in HT by (assumption || lia).
  congruence.
Qed.

(** Above the sum of its sub-tree the descent keeps right; below zero it
    keeps left. *)
Lemma retrieve_loop_keeps_right (h : nat) : forall fuel n ns upperbound,
  Forall (fun v => 0 <= v) (leaves self) ->
  (h <= fuel)%nat ->
  n * 2 ^ Z.of_nat h = cap + ns -> 0 <= ns -> ns + 2 ^ Z.of_nat h <= cap ->
  leaf_sum self ns (ns + 2 ^ Z.of_nat h) <= upperbound ->
  SumSegmentTree.retrieve_loop fuel self n upperbound = Ok (ns + 2 ^ Z.of_nat h - 1).
Proof.
  induction h as [|h IH]; intros fuel n ns upperbound Hpos Hfuel Hn Hns Hfit Hub.
  - change (2 ^ Z.of_nat 0) with 1 in *.
    destruct fuel; simpl; (destruct (Z.ltb_spec n cap); [lia|]); f_equal; lia.
  - rewrite Nat2Z.inj_succ, Z.pow_succ_r in * by lia.
    set (w := 2 ^ Z.of_nat h) in *.
    assert (Hw : 0 < w) by (apply Z.pow_pos_nonneg; lia).
    destruct fuel as [|fuel]; [lia|]. simpl.
    destruct (Z.ltb_spec n cap) as [Hin|?]; [|nia].
    rewrite (sum_node self self_wf self_inv self_add h (2 * n) ns) by (fold w; lia).
    fold w. simpl.
    pose proof (sum_split self ns (ns + w) (ns + 2 * w) ltac:(lia) ltac:(lia)) as Hsplit.
    pose proof (leaf_sum_nonneg self (ns + w) (ns + 2 * w) Hpos) as Hright.
    unfold Py.gt. simpl.
    destruct (Z.ltb_spec upperbound (leaf_sum self ns (ns + w))); [lia|].
    rewrite (IH fuel (2 * n + 1) (ns + w)); [f_equal; lia|assumption|lia|lia|lia|lia|].
    replace (ns + w + w) with (ns + 2 * w) by lia. lia.
Qed.

Lemma retrieve_loop_keeps_left (h : nat) : forall fuel n ns upperbound,
  Forall (fun v => 0 <= v) (leaves self) ->
  (h <= fuel)%nat ->
  n * 2 ^ Z.of_nat h = cap + ns -> 0 <= ns -> ns + 2 ^ Z.of_nat h <= cap ->
  upperbound < 0 ->
  SumSegmentTree.retrieve_loop fuel self n upperbound = Ok ns.
Proof.
  induction h as [|h IH]; intros fuel n ns upperbound Hpos Hfuel Hn Hns Hfit Hub.
  - change (2 ^ Z.of_nat 0) with 1 in *.
    destruct fuel; simpl; (destruct (Z.ltb_spec n cap); [lia|]); f_equal; lia.
  - rewrite Nat2Z.inj_succ, Z.pow_succ_r in * by lia.
    set (w := 2 ^ Z.of_nat h) in *.
    assert (Hw : 0 < w) by (apply Z.pow_pos_nonneg; lia).
    destruct fuel as [|fuel]; [lia|]. simpl.
    destruct (Z.ltb_spec n cap) as [Hin|?]; [|nia].
    rewrite (sum_node self self_wf self_inv self_add h (2 * n) ns) by (fold w; lia).
    fold w. simpl.
    pose proof (leaf_sum_nonneg self ns (ns + w) Hpos) as Hleft.
    unfold Py.gt. simpl.
    destruct (Z.ltb_spec upperbound (leaf_sum self ns (ns + w))); [|lia].
    apply IH; auto; lia.
Qed.

End BucketMore.

(** X11. Outside its contract [retrieve] clamps: on a [SumSegmentTree] with
    exact arithmetic, non-negative leaves and a valid fold invariant, a
    negative upperbound gives index [0] and an upperbound at or above the
    total [sum(0, capacity)] gives the last index [capacity - 1]. *)
Theorem retrieve_out_of_contract (self : SegmentTree.t Z) (k depth fuel : nat)
    (T upperbound : Z) :
  well_formed self ->
  SegmentTree.capacity self = 2 ^ Z.of_nat k ->
  SegmentTree.operation self = Py.add ->
  fold_invariant self ->
  Forall (fun v => 0 <= v) (leaves self) ->
  (k < depth)%nat -> (k <= fuel)%nat ->
  SumSegmentTree.sum depth self 0 (SegmentTree.capacity self) = Ok T ->
  (upperbound < 0 -> SumSegmentTree.retrieve fuel self upperbound = Ok 0) /\
  (T <= upperbound ->
     SumSegmentTree.retrieve fuel self upperbound = Ok (SegmentTree.capacity self - 1)).
Proof.
  intros Hwf Hk Hadd Hinv Hpos Hd Hfuel HT. pose proof Hwf as [Hcap Hlen].
  apply (total_is_prefix self k Hwf Hk Hadd Hinv) in HT; [|assumption].
  unfold SumSegmentTree.retrieve. split; intros Hub.
  - apply (retrieve_loop_keeps_left self k Hwf Hk Hadd Hinv k); auto; lia.
  - rewrite (retrieve_loop_keeps_right self k Hwf Hk Hadd Hinv k fuel 1 0); auto; try lia.
    + f_equal. lia.
    + rewrite Z.add_0_l, <- Hk. fold (prefix_sum self (SegmentTree.capacity self)). lia.
Qed.

(** X12. An in-contract [retrieve] never lands on a leaf of value zero (or
    below): for [0 <= upperbound < sum(0, capacity)] the leaf at the
    returned index is strictly positive. *)
Theorem retrieve_positive_leaf (self : SegmentTree.t Z) (k depth fuel : nat)
    (T upperbound : Z) :
  well_formed self ->
  SegmentTree.capacity self = 2 ^ Z.of_nat k ->
  SegmentTree.operation self = Py.add ->
  fold_invariant self ->
  (k < depth)%nat -> (k <= fuel)%nat ->
  SumSegmentTree.sum depth self 0 (SegmentTree.capacity self) = Ok T ->
  0 <= upperbound < T ->
  exists i v,
    SumSegmentTree.retrieve fuel self upperbound = Ok i /\
    SegmentTree.__getitem__ self i = Ok v /\
    0 < v.
Proof.
  intros Hwf Hk Hadd Hinv Hd Hfuel HT Hub. pose proof Hwf as [Hcap Hlen].
  apply (total_is_prefix self k Hwf Hk Hadd Hinv) in HT; [|assumption]. subst T.
  destruct (retrieve_root_bucket self k Hwf Hk Hadd Hinv fuel upperbound Hfuel Hub)
    as (i & Hrun & Hi & Hb).
  destruct (getitem_front (SegmentTree.tree self) (SegmentTree.capacity self + i))
    as (v & _ & Hv); [lia|].
  exists i, v. split; [exact Hrun|]. split; [exact Hv|].
  pose proof (leaf_sum_one self i v Hwf ltac:(lia) Hv) as Hone.
  unfold prefix_sum in Hb. rewrite (sum_split self 0 i (i + 1)) in Hb by lia. lia.
Qed.

(** X13. With non-negative leaves the bucket is unique, so [retrieve] is
    the inverse of the prefix sums: whenever an index [j] in
    [[0, capacity)] satisfies [P(j) <= upperbound < P(j + 1)],
    [retrieve(upperbound)] returns exactly [j]. *)
Theorem retrieve_unique_bucket (self : SegmentTree.t Z) (k fuel : nat) (upperbound j : Z) :
  well_formed self ->
  SegmentTree.capacity self = 2 ^ Z.of_nat k ->
  SegmentTree.operation self = Py.add ->
  fold_invariant self ->
  Forall (fun v => 0 <= v) (leaves self) ->
  (k <= fuel)%nat ->
  0 <= j < SegmentTree.capacity self ->
  prefix_sum self j <= upperbound < prefix_sum self (j + 1) ->
  SumSegmentTree.retrieve fuel self upperbound = Ok j.
Proof.
  intros Hwf Hk Hadd Hinv Hpos Hfuel Hj Hb.
  assert (Hub0 : 0 <= upperbound)
    by (pose proof (leaf_sum_nonneg self 0 j Hpos); unfold prefix_sum in Hb; lia).
  pose proof (prefix_sum_mono self (j + 1) (SegmentTree.capacity self) Hpos ltac:(lia)) as Htot.
  destruct (retrieve_root_bucket self k Hwf Hk Hadd Hinv fuel upperbound Hfuel ltac:(lia))
    as (i & Hrun & Hi & Hbi).
  rewrite Hrun. f_equal.
  destruct (Z.lt_trichotomy i j) as [Hlt|[Heq|Hgt]]; [|exact Heq|].
  - pose proof (prefix_sum_mono self (i + 1) j Hpos ltac:(lia)). lia.
  - pose proof (prefix_sum_mono self (j + 1) i Hpos ltac:(lia)). lia.
Qed.

(** X14. With non-negative leaves [retrieve] is monotone: for in-contract
    upperbounds [u1 <= u2] the index returned for [u1] is at most the one
    returned for [u2]. *)
Theorem retrieve_monotone (self : SegmentTree.t Z) (k depth fuel : nat) (T u1 u2 : Z) :
  well_formed self ->
  SegmentTree.capacity self = 2 ^ Z.of_nat k ->
  SegmentTree.operation self = Py.add ->
  fold_invariant self ->
  Forall (fun v => 0 <= v) (leaves self) ->
  (k < depth)%nat -> (k <= fuel)%nat ->
  SumSegmentTree.sum depth self 0 (SegmentTree.capacity self) = Ok T ->
  0 <= u1 -> u1 <= u2 -> u2 < T ->
  exists i1 i2,
    SumSegmentTree.retrieve fuel self u1 = Ok i1 /\
    SumSegmentTree.retrieve fuel self u2 = Ok i2 /\
    i1 <= i2.
Proof.
  intros Hwf Hk Hadd Hinv Hpos Hd Hfuel HT H1 H12 H2.
  apply (total_is_prefix self k Hwf Hk Hadd Hinv) in HT; [|assumption]. subst T.
  destruct (retrieve_root_bucket self k Hwf Hk Hadd Hinv fuel u1 Hfuel ltac:(lia))
    as (i1 & Hrun1 & Hi1 & Hb1).
  destruct (retrieve_root_bucket self k Hwf Hk Hadd Hinv fuel u2 Hfuel ltac:(lia))
    as (i2 & Hrun2 & Hi2 & Hb2).
  exists i1, i2. split; [exact Hrun1|]. split; [exact Hrun2|].
  destruct (Z.le_gt_cases i1 i2) as [Hle|Hgt]; [exact Hle|].
  pose proof (prefix_sum_mono self (i2 + 1) i1 Hpos ltac:(lia)). lia.
Qed.

(** ** The number of turns of [retrieve] *)

Section Turns.
Context {V : Type} `{Py.Num V}.
Implicit Types (self : SegmentTree.t V) (upperbound : V).

Lemma retrieve_loop_short self (h : nat) : forall fuel n ns upperbound,
  well_formed self ->
  (fuel < h)%nat ->
  n * 2 ^ Z.of_nat h = SegmentTree.capacity self + ns -> 0 <= ns ->
  ns + 2 ^ Z.of_nat h <= SegmentTree.capacity self ->
  SumSegmentTree.retrieve_loop fuel self n upperbound = Timeout.
Proof.
  induction h as [|h IH]; intros fuel n ns upperbound Hwf Hfuel Hn Hns Hfit; [lia|].
  rewrite Nat2Z.inj_succ, Z.pow_succ_r in * by lia.
  set (w := 2 ^ Z.of_nat h) in *.
  assert (Hw : 0 < w) by (apply Z.pow_pos_nonneg; lia).
  pose proof Hwf as [Hcap Hlen].
  destruct fuel as [|fuel]; simpl;
    (destruct (Z.ltb_spec n (SegmentTree.capacity self)) as [Hin|?]; [|nia]);
    [reflexivity|].
  unfold SegmentTree.slot.
  destruct (getitem_front (SegmentTree.tree self) (2 * n)) as (l & _ & ->); [nia|].
  simpl. destruct (Py.gt l upperbound).
  - apply (IH fuel (2 * n) ns); auto; lia.
  - apply (IH fuel (2 * n + 1) (ns + w)); auto; lia.
Qed.

(** X15. On a well-formed tree of capacity [2^k] the loop of [retrieve]
    makes exactly [k] turns, whatever the upperbound and the tree hold:
    it is still running after fewer turns and has returned after [k]. *)
Theorem retrieve_turns self (k fuel : nat) upperbound :
  well_formed self ->
  SegmentTree.capacity self = 2 ^ Z.of_nat k ->
  ((fuel < k)%nat -> SumSegmentTree.retrieve fuel self upperbound = Timeout) /\
  ((k <= fuel)%nat ->
     exists i, SumSegmentTree.retrieve fuel self upperbound = Ok i /\
               0 <= i < SegmentTree.capacity self).
Proof.
  intros Hwf Hk. pose proof Hwf as [Hcap Hlen]. split; intros Hfuel.
  - apply (retrieve_loop_short self k fuel 1 0); auto; lia.
  - apply (retrieve_total self k); assumption.
Qed.

End Turns.

(** ** Folds of an operation that picks one of its arguments *)

Section Selective.
Context {V : Type}.
Variable self : SegmentTree.t V.
Hypothesis self_wf : well_formed self.
Hypothesis self_inv : fold_invariant self.
Hypothesis op_selects : forall a b,
  SegmentTree.operation self a b = a \/ SegmentTree.operation self a b = b.

Local Abbreviation cap := (SegmentTree.capacity self).

Lemma node_is_some_leaf (h : nat) : forall n ns,
  n * 2 ^ Z.of_nat h = cap + ns -> 0 <= ns -> ns + 2 ^ Z.of_nat h <= cap ->
  exists j v, ns <= j < ns + 2 ^ Z.of_nat h /\
              SegmentTree.slot self n = Ok v /\
              SegmentTree.__getitem__ self j = Ok v.
Proof.
  pose proof self_wf as [Hcap Hlen].
  induction h as [|h IH]; intros n ns Hn Hns Hfit.
  - change (2 ^ Z.of_nat 0) with 1 in *.
    destruct (getitem_front (SegmentTree.tree self) n) as (x & _ & Hx); [lia|].
    exists ns, x. split; [lia|]. split; [exact Hx|].
    unfold SegmentTree.__getitem__. rewrite <- Hx. f_equal. lia.
  - rewrite Nat2Z.inj_succ, Z.pow_succ_r in * by lia.
    set (w := 2 ^ Z.of_nat h) in *.
    assert (Hw : 0 < w) by (apply Z.pow_pos_nonneg; lia).
    assert (Hrange : 1 <= n < cap) by nia.
    destruct (IH (2 * n) ns) as (j1 & v1 & Hj1 & Hs1 & Hg1); [lia|lia|lia|].
    destruct (IH (2 * n + 1) (ns + w)) as (j2 & v2 & Hj2 & Hs2 & Hg2); [lia|lia|lia|].
    rewrite (self_inv n Hrange), Hs1, Hs2. simpl.
    destruct (op_selects v1 v2) as [-> | ->].
    + exists j1, v1. split; [lia|auto].
    + exists j2, v2. split; [lia|auto].
Qed.

Lemma operate_helper_is_some_leaf (h : nat) : forall depth n ns ne start end_,
  (h < depth)%nat ->
  n * 2 ^ Z.of_nat h = cap + ns -> 0 <= ns -> ne = ns + 2 ^ Z.of_nat h - 1 -> ne < cap ->
  ns <= start <= end_ -> end_ <= ne ->
  exists j v, start <= j <= end_ /\
              SegmentTree._operate_helper depth self start end_ n ns ne = Ok v /\
              SegmentTree.__getitem__ self j = Ok v.
Proof.
  induction h as [|h IH]; intros depth n ns ne start end_ Hd Hn Hns Hne Hfit Hse Hend;
    (destruct depth as [|depth]; [lia|]); simpl.
  - change (2 ^ Z.of_nat 0) with 1 in *.
    assert (start = ns /\ end_ = ne) as [-> ->] by lia.
    rewrite !Z.eqb_refl. simpl. subst ne.
    destruct (node_is_some_leaf 0 n ns) as (j & v & Hj & Hs & Hg);
      try (change (2 ^ Z.of_nat 0) with 1; lia).
    change (2 ^ Z.of_nat 0) with 1 in Hj. exists j, v. split; [lia|auto].
  - destruct ((start =? ns) && (end_ =? ne)) eqn:Hhit.
    + apply andb_true_iff in Hhit as [->%Z.eqb_eq ->%Z.eqb_eq].
      destruct (node_is_some_leaf (S h) n ns) as (j & v & Hj & Hs & Hg); try lia.
      exists j, v. split; [lia|auto].
    + rewrite Nat2Z.inj_succ, Z.pow_succ_r in * by lia.
      set (w := 2 ^ Z.of_nat h) in *.
      assert (Hw : 0 < w) by (apply Z.pow_pos_nonneg; lia).
      assert (Hmid : (ns + ne) / 2 = ns + w - 1)
        by (symmetry; apply (Z.div_unique _ _ _ 1); lia).
      rewrite Hmid.
      destruct (Z.leb_spec end_ (ns + w - 1)) as [Hleft|Hleft].
      * apply (IH depth (2 * n) ns); lia.
      * destruct (Z.leb_spec (ns + w - 1 + 1) start) as [Hright|Hright].
        -- apply (IH depth (2 * n + 1) (ns + w - 1 + 1)); lia.
        -- destruct (IH depth (2 * n) ns (ns + w - 1) start (ns + w - 1))
             as (j1 & v1 & Hj1 & -> & Hg1); try lia.
           destruct (IH depth (2 * n + 1) (ns + w - 1 + 1) ne (ns + w - 1 + 1) end_)
             as (j2 & v2 & Hj2 & -> & Hg2); try lia.
           simpl. destruct (op_selects v1 v2) as [-> | ->].
           ++ exists j1, v1. split; [lia|auto].
           ++ exists j2, v2. split; [lia|auto].
Qed.

End Selective.

Lemma min_fold_invariant_513 : fold_invariant min_513.
Proof.
  intros i Hi. simpl in Hi.
  assert (i = 1 \/ i = 2 \/ i = 3) as [->|[->| ->]] by lia; reflexivity.
Qed.

(** X16. [min] invents no value: on a tree whose operation is the builtin
    [min] (on binary64 floats), of power-of-two capacity and with a valid
    fold invariant, [min(start, end)] over a range with
    [0 <= start < end <= capacity] returns the value stored at some leaf of
    that range. *)
Theorem min_returns_a_leaf (self : SegmentTree.t float) (k depth : nat) (start end_ : Z) :
  well_formed self ->
  SegmentTree.capacity self = 2 ^ Z.of_nat k ->
  SegmentTree.operation self = Py.min ->
  fold_invariant self ->
  (k < depth)%nat ->
  0 <= start < end_ -> end_ <= SegmentTree.capacity self ->
  exists j v,
    start <= j < end_ /\
    MinSegmentTree.min depth self start end_ = Ok v /\
    SegmentTree.__getitem__ self j = Ok v.
Proof.
  intros Hwf Hk Hmin Hinv Hd Hse Hend.
  unfold MinSegmentTree.min, SegmentTree.operate. cbv zeta.
  destruct (Z.leb_spec end_ 0); [lia|].
  destruct (operate_helper_is_some_leaf self Hwf Hinv) with
    (h := k) (depth := depth) (n := 1) (ns := 0)
    (ne := SegmentTree.capacity self - 1) (start := start) (end_ := end_ - 1)
    as (j & v & Hj & Hrun & Hget); try lia.
  { intros a b. rewrite Hmin. unfold Py.min. destruct (Py.lt b a); auto. }
  exists j, v. split; [lia|auto].
Qed.

(** ** [__getitem__] and the bounds of the list *)

(** X17. On a well-formed tree [get(idx)] returns a value exactly when
    [-3 * capacity <= idx < capacity] and raises [IndexError] otherwise:
    an index at or above the capacity is rejected by the list, while a
    negative one is not and silently reads another slot. *)
Theorem getitem_bounds {V : Type} (self : SegmentTree.t V) (idx : Z) :
  well_formed self ->
  (- 3 * SegmentTree.capacity self <= idx < SegmentTree.capacity self ->
     exists v, SegmentTree.__getitem__ self idx = Ok v) /\
  (idx < - 3 * SegmentTree.capacity self \/ SegmentTree.capacity self <= idx ->
     SegmentTree.__getitem__ self idx = Raise IndexError).
Proof.
  intros [Hcap Hlen]. unfold SegmentTree.__getitem__, Py.getitem, Py.index. cbv zeta.
  split; intros Hidx.
  - destruct (decide (0 <= SegmentTree.capacity self + idx)) as [Hp|Hp].
    + rewrite bool_decide_eq_true_2 by lia. simpl.
      destruct (lookup_lt_is_Some_2 (SegmentTree.tree self)
                  (Z.to_nat (SegmentTree.capacity self + idx))) as [v ->]; [lia|].
      eauto.
    + rewrite bool_decide_eq_false_2 by lia.
      rewrite bool_decide_eq_true_2 by lia. simpl.
      destruct (lookup_lt_is_Some_2 (SegmentTree.tree self)
                  (Z.to_nat (SegmentTree.capacity self + idx +
                             Z.of_nat (length (SegmentTree.tree self))))) as [v ->]; [lia|].
      eauto.
  - rewrite !bool_decide_eq_false_2 by lia. reflexivity.
Qed.

(** X18. Called with its defaults, [operate()] (hence [sum()] and [min()])
    returns the naive fold of the operation over all the leaves, under the
    hypotheses of the fold-correctness property. *)
Theorem operate_default_folds_all {V : Type} (self : SegmentTree.t V) (identity : V)
    (k depth : nat) :
  well_formed self ->
  SegmentTree.capacity self = 2 ^ Z.of_nat k ->
  fold_invariant self ->
  (forall a b c, SegmentTree.operation self a (SegmentTree.operation self b c) =
                 SegmentTree.operation self (SegmentTree.operation self a b) c) ->
  (forall a, SegmentTree.operation self identity a = a) ->
  (k < depth)%nat ->
  SegmentTree.operate depth self 0 0 =
  Ok (naive_fold (SegmentTree.operation self) identity (leaves self)).
Proof.
  intros Hwf Hk Hinv Hassoc Hid Hd.
  apply (operate_0_0_folds_all self identity k); assumption.
Qed.

(** ** The further properties at sample inputs *)

Lemma sum_1234_add_assoc a b c :
  SegmentTree.operation sum_1234 a (SegmentTree.operation sum_1234 b c) =
  SegmentTree.operation sum_1234 (SegmentTree.operation sum_1234 a b) c.
Proof. simpl. lia. Qed.

Lemma sum_1234_nonneg : Forall (fun v => 0 <= v) (leaves sum_1234).
Proof. unfold leaves. simpl. repeat constructor; lia. Qed.

Lemma operate_default_folds_all_witness :
  SegmentTree.operate 3 sum_1234 0 0 = Ok (naive_fold Z.add 0 [1; 2; 3; 4]).
Proof.
  apply (operate_default_folds_all sum_1234 0 2 3).
  - exact sum_1234_well_formed.
  - reflexivity.
  - exact sum_1234_fold_invariant.
  - exact sum_1234_add_assoc.
  - intros a. reflexivity.
  - lia.
Defined.

Lemma leaves_after_setitem_witness :
  exists self',
    SegmentTree.__setitem__ sum_1234 2 9 = (Ok tt, self') /\
    leaves self' = <[2%nat := 9]> [1; 2; 3; 4].
Proof.
  apply (leaves_after_setitem sum_1234 2 9); [exact sum_1234_well_formed|simpl; lia].
Defined.

Lemma operate_after_sets_is_array_fold_witness :
  exists self',
    set_all (SegmentTree.__init__ 4 Z.add 0) [(0, 1); (1, 2); (2, 3); (3, 4)] = (Ok tt, self') /\
    SegmentTree.operate 3 self' 1 4 =
    Ok (naive_fold Z.add 0
          (range (apply_writes (replicate 4 0) [(0, 1); (1, 2); (2, 3); (3, 4)]) 1 4)).
Proof.
  apply (operate_after_sets_is_array_fold 2 3 Z.add 0 [(0, 1); (1, 2); (2, 3); (3, 4)] 1 4).
  - intros a b c. lia.
  - intros a. reflexivity.
  - repeat constructor; simpl; lia.
  - lia.
  - lia.
  - simpl. lia.
Defined.

Lemma setitem_same_value_witness :
  SegmentTree.__setitem__ sum_1234 2 3 = (Ok tt, sum_1234).
Proof.
  apply (setitem_same_value sum_1234 2 3);
    [exact sum_1234_well_formed|exact sum_1234_fold_invariant|simpl; lia|reflexivity].
Defined.

Lemma setitem_commute_witness :
  exists final,
    set_all sum_1234 [(0, 7); (3, 8)] = (Ok tt, final) /\
    set_all sum_1234 [(3, 8); (0, 7)] = (Ok tt, final).
Proof.
  apply (setitem_commute sum_1234 0 3 7 8);
    [exact sum_1234_well_formed|exact sum_1234_fold_invariant|simpl; lia|simpl; lia|lia].
Defined.

Lemma setitem_overwrite_witness :
  exists final,
    set_all sum_1234 [(1, 7); (1, 8)] = (Ok tt, final) /\
    SegmentTree.__setitem__ sum_1234 1 8 = (Ok tt, final).
Proof.
  apply (setitem_overwrite sum_1234 1 7 8);
    [exact sum_1234_well_formed|exact sum_1234_fold_invariant|simpl; lia].
Defined.

Lemma operate_split_range_witness :
  exists x y,
    SegmentTree.operate 3 sum_1234 0 1 = Ok x /\
    SegmentTree.operate 3 sum_1234 1 4 = Ok y /\
    SegmentTree.operate 3 sum_1234 0 4 = Ok (x + y).
Proof.
  apply (operate_split_range sum_1234 0 2 3 0 1 4).
  - exact sum_1234_well_formed.
  - reflexivity.
  - exact sum_1234_fold_invariant.
  - exact sum_1234_add_assoc.
  - intros a. reflexivity.
  - lia.
  - lia.
  - lia.
  - simpl. lia.
Defined.

Lemma total_after_setitem_witness :
  exists self',
    SegmentTree.__setitem__ sum_1234 2 9 = (Ok tt, self') /\
    SumSegmentTree.sum 3 self' 0 0 = Ok (10 - 3 + 9).
Proof.
  apply (total_after_setitem sum_1234 2 3 2 9 3 10).
  - exact sum_1234_well_formed.
  - reflexivity.
  - reflexivity.
  - exact sum_1234_fold_invariant.
  - lia.
  - simpl. lia.
  - reflexivity.
  - reflexivity.
Defined.

Lemma retrieve_out_of_contract_witness :
  SumSegmentTree.retrieve 2 sum_1234 (-1) = Ok 0 /\
  SumSegmentTree.retrieve 2 sum_1234 10 = Ok 3.
Proof.
  destruct (retrieve_out_of_contract sum_1234 2 3 2 10 (-1)) as [Hlow _];
    [exact sum_1234_well_formed|reflexivity|reflexivity|exact sum_1234_fold_invariant
    |exact sum_1234_nonneg|lia|lia|reflexivity|].
  destruct (retrieve_out_of_contract sum_1234 2 3 2 10 10) as [_ Hhigh];
    [exact sum_1234_well_formed|reflexivity|reflexivity|exact sum_1234_fold_invariant
    |exact sum_1234_nonneg|lia|lia|reflexivity|].
  split; [apply Hlow; lia|apply Hhigh; lia].
Defined.

Lemma retrieve_positive_leaf_witness :
  exists i v,
    SumSegmentTree.retrieve 2 sum_1234 3 = Ok i /\
    SegmentTree.__getitem__ sum_1234 i = Ok v /\
    0 < v.
Proof.
  apply (retrieve_positive_leaf sum_1234 2 3 2 10 3);
    [exact sum_1234_well_formed|reflexivity|reflexivity|exact sum_1234_fold_invariant
    |lia|lia|reflexivity|lia].
Defined.

Lemma retrieve_unique_bucket_witness :
  SumSegmentTree.retrieve 2 sum_1234 3 = Ok 2.
Proof.
  apply (retrieve_unique_bucket sum_1234 2 2 3 2);
    [exact sum_1234_well_formed|reflexivity|reflexivity|exact sum_1234_fold_invariant
    |exact sum_1234_nonneg|lia|simpl; lia|vm_compute; split; congruence].
Defined.

Lemma retrieve_monotone_witness :
  exists i1 i2,
    SumSegmentTree.retrieve 2 sum_1234 2 = Ok i1 /\
    SumSegmentTree.retrieve 2 sum_1234 7 = Ok i2 /\
    i1 <= i2.
Proof.
  apply (retrieve_monotone sum_1234 2 3 2 10 2 7);
    [exact sum_1234_well_formed|reflexivity|reflexivity|exact sum_1234_fold_invariant
    |exact sum_1234_nonneg|lia|lia|reflexivity|lia|lia|lia].
Defined.

Lemma retrieve_turns_witness :
  SumSegmentTree.retrieve 1 sum_1234 3 = Timeout /\
  exists i, SumSegmentTree.retrieve 2 sum_1234 3 = Ok i /\ 0 <= i < 4.
Proof.
  destruct (retrieve_turns sum_1234 2 1 3) as [Hshort _];
    [exact sum_1234_well_formed|reflexivity|].
  destruct (retrieve_turns sum_1234 2 2 3) as [_ Hdone];
    [exact sum_1234_well_formed|reflexivity|].
  split; [apply Hshort; lia|apply Hdone; lia].
Defined.

Lemma min_returns_a_leaf_witness :
  exists j v,
    2 <= j < 4 /\
    MinSegmentTree.min 3 min_513 2 4 = Ok v /\
    SegmentTree.__getitem__ min_513 j = Ok v.
Proof.
  apply (min_returns_a_leaf min_513 2 3 2 4);
    [split; simpl; lia|reflexivity|reflexivity|exact min_fold_invariant_513
    |lia|lia|simpl; lia].
Defined.

Lemma getitem_bounds_witness :
  (exists v, SegmentTree.__getitem__ sum_1234 (-3) = Ok v) /\
  SegmentTree.__getitem__ sum_1234 4 = Raise IndexError.
Proof.
  destruct (getitem_bounds sum_1234 (-3) sum_1234_well_formed) as [Hin _].
  destruct (getitem_bounds sum_1234 4 sum_1234_well_formed) as [_ Hout].
  split; [apply Hin; simpl; lia|apply Hout; right; simpl; lia].
Defined.

(** X19. Over a range whose leaves are all untouched ([+infinity]),
    [min(start, end)] is [+infinity]: on a tree whose operation is the
    builtin [min], of power-of-two capacity and with a valid fold
    invariant, if every leaf at an index in [[start, end)] holds
    [+infinity] then so does the answer. *)
Theorem min_untouched_range (self : SegmentTree.t float) (k depth : nat) (start end_ : Z) :
  well_formed self ->
  SegmentTree.capacity self = 2 ^ Z.of_nat k ->
  SegmentTree.operation self = Py.min ->
  fold_invariant self ->
  (k < depth)%nat ->
  0 <= start < end_ -> end_ <= SegmentTree.capacity self ->
  (forall j, start <= j < end_ -> SegmentTree.__getitem__ self j = Ok infinity) ->
  MinSegmentTree.min depth self start end_ = Ok infinity.
Proof.
  intros Hwf Hk Hmin Hinv Hd Hse Hend Hleaves.
  unfold MinSegmentTree.min, SegmentTree.operate. cbv zeta.
  destruct (Z.leb_spec end_ 0); [lia|].
  destruct (operate_helper_is_some_leaf self Hwf Hinv) with
    (h := k) (depth := depth) (n := 1) (ns := 0)
    (ne := SegmentTree.capacity self - 1) (start := start) (end_ := end_ - 1)
    as (j & v & Hj & Hrun & Hget); try lia.
  { intros a b. rewrite Hmin. unfold Py.min. destruct (Py.lt b a); auto. }
  rewrite Hrun. rewrite (Hleaves j) in Hget by lia. congruence.
Qed.

Lemma min_untouched_range_witness :
  MinSegmentTree.min 3 min_513 3 4 = Ok infinity.
Proof.
  apply (min_untouched_range min_513 2 3 3 4);
    [split; simpl; lia|reflexivity|reflexivity|exact min_fold_invariant_513
    |lia|lia|simpl; lia|].
  intros j Hj. assert (j = 3) as -> by lia. reflexivity.
Defined.
